(** * biomappings.resources: the curated mapping tables

    A shallow embedding of [src/biomappings/resources/__init__.py]: the
    tab-separated table codec ([_load_table], [_write_helper]), the four
    table repositories (true mappings, false mappings, unsure, predictions),
    prediction deduplication and filtering, and the typed tuple adapters.

    Files are modelled as text: a file system is a finite map from paths to
    the characters of each file.  Python strings are modelled by [string];
    a file is taken to be UTF-8, whose byte-wise lexicographic order agrees
    with Python's code-point order on [str].  The interpreter is assumed to
    run on a POSIX system, where writing a line feed in text mode stores a
    line feed. *)

From Stdlib Require Import Ascii String NArith List Sorting.Sorted Permutation.
From stdpp Require Import base option list gmap strings sorting.

Local Open Scope string_scope.
Local Open Scope list_scope.

(** ** Characters of the format *)

Definition TAB : ascii := "009"%char.
Definition LF : ascii := "010"%char.
Definition CR : ascii := "013"%char.
Definition QUOTE : ascii := "034"%char.

(** ** Exceptions and results *)

Inductive exn :=
| FileNotFoundError (path : string)
| StopIteration
| KeyError (key : string)
| TypeError
| csv_Error.

Inductive result (A : Type) :=
| Ok (a : A)
| Raise (e : exn).
Arguments Ok {A} a.
Arguments Raise {A} e.

Global Instance result_ret : MRet result := fun A a => Ok a.
Global Instance result_bind : MBind result := fun A B f m =>
  match m with
  | Ok a => f a
  | Raise e => Raise e
  end.
Global Instance result_fmap : FMap result := fun A B f m =>
  match m with
  | Ok a => Ok (f a)
  | Raise e => Raise e
  end.

(** [[f x for x in l]] where [f] may raise: the first exception wins. *)
Fixpoint comprehension {A B} (f : A -> result B) (l : list A) : result (list B) :=
  match l with
  | [] => Ok []
  | x :: l' =>
      y ← f x;
      ys ← comprehension f l';
      Ok (y :: ys)
  end.

(** ** Reading text: [open(fname, "r")] and iteration over the handle *)

(** Universal newlines, the default of [open] in text mode: on input each of
    CR LF and CR becomes a line feed. *)
Fixpoint universal_newlines (s : string) : string :=
  match s with
  | EmptyString => EmptyString
  | String c s' =>
      if Ascii.eqb c CR then
        match s' with
        | String c' s'' =>
            if Ascii.eqb c' LF then String LF (universal_newlines s'')
            else String LF (universal_newlines s')
        | EmptyString => String LF EmptyString
        end
      else String c (universal_newlines s')
  end.

(** Iterating over a text file yields its lines, each with its terminating
    line feed; the last line has none when the file does not end in one. *)
Fixpoint iter_lines (s : string) : list string :=
  match s with
  | EmptyString => []
  | String c s' =>
      if Ascii.eqb c LF then String c EmptyString :: iter_lines s'
      else match iter_lines s' with
           | [] => [String c EmptyString]
           | l :: ls => String c l :: ls
           end
  end.

(** ** [csv.reader(fh, delimiter="\t")]

    The reader of CPython's [_csv] module (as of version 3.11, which takes
    a NUL character as any other) for the dialect the module uses: the
    [excel] defaults with a tab delimiter, that is the double quote as quote
    character, doubled quotes, no escape character, no skipping of initial
    spaces, not strict.  The states that only an escape character reaches
    are left out. *)

Inductive ParserState :=
| START_RECORD
| START_FIELD
| IN_FIELD
| IN_QUOTED_FIELD
| QUOTE_IN_QUOTED_FIELD
| EAT_CRNL.

Global Instance ParserState_eq_dec : EqDecision ParserState.
Proof. solve_decision. Defined.

Record ReaderObj := mkReader {
  state : ParserState;
  fields : list string;   (* the fields of the current record, in order *)
  field : string          (* the characters of the current field *)
}.

(** [csv.field_size_limit()], 128 KiB unless the caller changes it. *)
Definition field_limit : N := 131072.

Definition parse_reset : ReaderObj :=
  {| state := START_RECORD; fields := []; field := "" |}.

Definition set_state (self : ReaderObj) (s : ParserState) : ReaderObj :=
  {| state := s; fields := fields self; field := field self |}.

Definition parse_save_field (self : ReaderObj) : ReaderObj :=
  {| state := state self; fields := fields self ++ [field self]; field := "" |}.

Definition parse_add_char (self : ReaderObj) (c : ascii) : result ReaderObj :=
  if (field_limit <=? N.of_nat (String.length (field self)))%N then Raise csv_Error
  else Ok {| state := state self; fields := fields self;
             field := field self +:+ String c "" |}.

Definition is_newline (c : ascii) : bool := Ascii.eqb c LF || Ascii.eqb c CR.

(** What [START_FIELD] does with a character ([None] is the end of the line).
    [START_RECORD] falls through to it for a normal character. *)
Definition start_field (self : ReaderObj) (c : option ascii) : result ReaderObj :=
  match c with
  | None => Ok (set_state (parse_save_field self) START_RECORD)
  | Some c =>
      if is_newline c then Ok (set_state (parse_save_field self) EAT_CRNL)
      else if Ascii.eqb c QUOTE then Ok (set_state self IN_QUOTED_FIELD)
      else if Ascii.eqb c TAB then Ok (set_state (parse_save_field self) START_FIELD)
      else parse_add_char (set_state self IN_FIELD) c
  end.

Definition parse_process_char (self : ReaderObj) (c : option ascii) : result ReaderObj :=
  match state self with
  | START_RECORD =>
      match c with
      | None => Ok self
      | Some c' =>
          if is_newline c' then Ok (set_state self EAT_CRNL)
          else start_field self c
      end
  | START_FIELD => start_field self c
  | IN_FIELD =>
      match c with
      | None => Ok (set_state (parse_save_field self) START_RECORD)
      | Some c' =>
          if is_newline c' then Ok (set_state (parse_save_field self) EAT_CRNL)
          else if Ascii.eqb c' TAB then Ok (set_state (parse_save_field self) START_FIELD)
          else parse_add_char self c'
      end
  | IN_QUOTED_FIELD =>
      match c with
      | None => Ok self
      | Some c' =>
          if Ascii.eqb c' QUOTE then Ok (set_state self QUOTE_IN_QUOTED_FIELD)
          else parse_add_char self c'
      end
  | QUOTE_IN_QUOTED_FIELD =>
      match c with
      | None => Ok (set_state (parse_save_field self) START_RECORD)
      | Some c' =>
          if Ascii.eqb c' QUOTE then parse_add_char (set_state self IN_QUOTED_FIELD) c'
          else if Ascii.eqb c' TAB then Ok (set_state (parse_save_field self) START_FIELD)
          else if is_newline c' then Ok (set_state (parse_save_field self) EAT_CRNL)
          else parse_add_char (set_state self IN_FIELD) c'
      end
  | EAT_CRNL =>
      match c with
      | None => Ok (set_state self START_RECORD)
      | Some c' => if is_newline c' then Ok self else Raise csv_Error
      end
  end.

(** The characters of one line, then the end-of-line signal. *)
Fixpoint parse_chars (self : ReaderObj) (line : string) : result ReaderObj :=
  match line with
  | EmptyString => Ok self
  | String c line' =>
      self' ← parse_process_char self (Some c);
      parse_chars self' line'
  end.

Definition parse_line (self : ReaderObj) (line : string) : result ReaderObj :=
  self' ← parse_chars self line;
  parse_process_char self' None.

(** All the rows the reader yields: [Reader_iternext] called until the lines
    run out.  A record ends when a line leaves the parser in [START_RECORD];
    when the input ends inside a record (an open quoted field), the fields
    read so far are returned as the last row. *)
Fixpoint reader_rows (self : ReaderObj) (lines : list string) : result (list (list string)) :=
  match lines with
  | [] =>
      if negb (String.eqb (field self) "") || bool_decide (state self = IN_QUOTED_FIELD)
      then Ok [fields (parse_save_field self)]
      else Ok []
  | line :: lines' =>
      self' ← parse_line self line;
      if bool_decide (state self' = START_RECORD) then
        rows ← reader_rows parse_reset lines';
        Ok (fields self' :: rows)
      else reader_rows self' lines'
  end.

Definition csv_reader (text : string) : result (list (list string)) :=
  reader_rows parse_reset (iter_lines (universal_newlines text)).

(** ** Records, tuples of strings and their order *)

(** A record is a [dict] from column names to strings. *)
Abbreviation Mapping := (gmap string string).

(** [dict(items)]: the pairs are stored in order, a later one replaces an
    earlier one with the same key. *)
Definition dict {V} (items : list (string * V)) : gmap string V :=
  foldl (fun d kv => <[kv.1 := kv.2]> d) ∅ items.

(** [mapping[key]] *)
Definition getitem {V} (mapping : gmap string V) (key : string) : result V :=
  match mapping !! key with
  | Some v => Ok v
  | None => Raise (KeyError key)
  end.

(** Python compares tuples at the first position where they differ; a proper
    prefix is smaller. *)
Fixpoint tuple_compare (a b : list string) : comparison :=
  match a, b with
  | [], [] => Eq
  | [], _ :: _ => Lt
  | _ :: _, [] => Gt
  | x :: a', y :: b' =>
      match String.compare x y with
      | Eq => tuple_compare a' b'
      | c => c
      end
  end.

Definition tuple_lt (a b : list string) : bool :=
  match tuple_compare a b with Lt => true | _ => false end.

Definition tuple_le (a b : list string) : bool :=
  match tuple_compare a b with Gt => false | _ => true end.

(** ** [sorted(iterable, key=...)]

    The keys are computed first, once per element; the sort is stable and
    compares keys with [<] only.  A stable sort has one possible result, so
    insertion from the right stands for the interpreter's merge sort. *)

Section Sorted.
Context {A : Type}.

Fixpoint insert_by_key (x : list string * A) (l : list (list string * A)) :=
  match l with
  | [] => [x]
  | y :: l' => if tuple_lt y.1 x.1 then y :: insert_by_key x l' else x :: l
  end.

Definition sort_decorated (l : list (list string * A)) : list (list string * A) :=
  foldr insert_by_key [] l.

Definition sorted (l : list A) (key : A -> result (list string)) : result (list A) :=
  decorated ← comprehension (fun x => k ← key x; Ok (k, x)) l;
  Ok (snd <$> sort_decorated decorated).
End Sorted.

(** ** The file system and the effects of the module *)

Abbreviation filesystem := (gmap string string).

(** A computation reads and changes the files and returns or raises; the
    files keep what was written before an exception. *)
Definition io (A : Type) : Type := filesystem -> filesystem * result A.

Global Instance io_ret : MRet io := fun A a fs => (fs, Ok a).
Global Instance io_bind : MBind io := fun A B f m fs =>
  match m fs with
  | (fs', Ok a) => f a fs'
  | (fs', Raise e) => (fs', Raise e)
  end.

Definition lift {A} (r : result A) : io A := fun fs => (fs, r).

(** [for x in l: body(x)] *)
Fixpoint for_each {A} (l : list A) (body : A -> io unit) : io unit :=
  match l with
  | [] => mret tt
  | x :: l' => _ ← body x; for_each l' body
  end.

(** The whole text of [open(path, "r")]. *)
Definition read_text (path : string) : io string := fun fs =>
  match fs !! path with
  | Some text => (fs, Ok text)
  | None => (fs, Raise (FileNotFoundError path))
  end.

(** The two modes the module opens a file for writing with. *)
Inductive open_mode := mode_w | mode_a.

(** [open(path, mode)]: mode [w] empties or creates the file, mode [a]
    creates it when it is missing. *)
Definition open_ (path : string) (mode : open_mode) : io unit := fun fs =>
  match mode with
  | mode_w => (<[path := ""]> fs, Ok tt)
  | mode_a =>
      match fs !! path with
      | Some _ => (fs, Ok tt)
      | None => (<[path := ""]> fs, Ok tt)
      end
  end.

(** The text of [print( *items, sep="\t")]. *)
Definition print_text (items : list string) : string :=
  String.concat (String TAB "") items +:+ String LF "".

(** [print( *items, sep="\t", file=file)]: the line goes to the end of the
    file. *)
Definition print (path : string) (items : list string) : io unit := fun fs =>
  (alter (fun text => text +:+ print_text items) path fs, Ok tt).

(** ** The module *)

Definition MAPPINGS_HEADER : list string :=
  [ "source prefix"; "source identifier"; "source name"; "relation";
    "target prefix"; "target identifier"; "target name"; "type"; "source" ].

Definition PREDICTIONS_HEADER : list string :=
  [ "source prefix"; "source identifier"; "source name"; "relation";
    "target prefix"; "target identifier"; "target name"; "type";
    "confidence"; "source" ].

(** [os.path.join] of two components on POSIX. *)
Definition os_path_join (a b : string) : string :=
  if String.prefix "/" b then b
  else if String.eqb a "" then b
  else if String.eqb (String.substring (String.length a - 1) 1 a) "/" then a +:+ b
  else a +:+ "/" +:+ b.

Definition _load_table (fname : string) : io (list Mapping) :=
  text ← read_text fname;
  rows ← lift (csv_reader text);
  match rows with
  | [] => lift (Raise StopIteration)
  | header :: rows' => mret ((fun row => dict (zip header row)) <$> rows')
  end.

Definition mapping_sort_key (prediction : Mapping) : result (list string) :=
  a ← getitem prediction "source prefix";
  b ← getitem prediction "source identifier";
  c ← getitem prediction "relation";
  d ← getitem prediction "target prefix";
  e ← getitem prediction "target identifier";
  f ← getitem prediction "type";
  g ← getitem prediction "source";
  Ok [a; b; c; d; e; f; g].

Definition _write_helper (header : list string) (lod : list Mapping)
    (path : string) (mode : open_mode) : io unit :=
  lod ← lift (sorted lod mapping_sort_key);
  _ ← open_ path mode;
  _ ← (if mode is mode_w then print path header else mret tt);
  for_each lod (fun line =>
    items ← lift (comprehension (getitem line) header);
    print path items).

(** Modelled from the spec: [get_canonical_tuple] of [biomappings.utils],
    which is not part of the sources at hand.  Section 3 of the specification
    gives the canonical key as the tuple (source prefix, source identifier,
    relation, target prefix, target identifier, type, source). *)
Definition get_canonical_tuple (mapping : Mapping) : result (list string) :=
  a ← getitem mapping "source prefix";
  b ← getitem mapping "source identifier";
  c ← getitem mapping "relation";
  d ← getitem mapping "target prefix";
  e ← getitem mapping "target identifier";
  f ← getitem mapping "type";
  g ← getitem mapping "source";
  Ok [a; b; c; d; e; f; g].

(** [target_id != custom_filter.get(source_prefix, {}).get(target_prefix, {}).get(source_id)] *)
Definition _check_filter (prediction : Mapping)
    (custom_filter : gmap string (gmap string (gmap string string))) : result bool :=
  source_prefix ← getitem prediction "source prefix";
  target_prefix ← getitem prediction "target prefix";
  source_id ← getitem prediction "source identifier";
  target_id ← getitem prediction "target identifier";
  Ok (negb (bool_decide
    (Some target_id =
       default ∅ (default ∅ (custom_filter !! source_prefix) !! target_prefix) !! source_id))).

Section Resources.
(** [RESOURCE_PATH] of [biomappings.utils]: the resource directory. *)
Variable RESOURCE_PATH : string.

Definition get_resource_file_path (fname : string) : string :=
  os_path_join RESOURCE_PATH fname.

Definition TRUE_MAPPINGS_PATH := get_resource_file_path "mappings.tsv".

Definition load_mappings : io (list Mapping) := _load_table TRUE_MAPPINGS_PATH.

Definition write_true_mappings (m : list Mapping) : io unit :=
  _write_helper MAPPINGS_HEADER m TRUE_MAPPINGS_PATH mode_w.

Definition append_true_mappings (m : list Mapping) (sort : bool) : io unit :=
  _ ← _write_helper MAPPINGS_HEADER m TRUE_MAPPINGS_PATH mode_a;
  if sort then
    l ← load_mappings;
    s ← lift (sorted l mapping_sort_key);
    write_true_mappings s
  else mret tt.

Definition lint_true_mappings : io unit :=
  l ← load_mappings;
  s ← lift (sorted l mapping_sort_key);
  write_true_mappings s.

Definition FALSE_MAPPINGS_PATH := get_resource_file_path "incorrect.tsv".

Definition load_false_mappings : io (list Mapping) := _load_table FALSE_MAPPINGS_PATH.

Definition write_false_mappings (m : list Mapping) : io unit :=
  _write_helper MAPPINGS_HEADER m FALSE_MAPPINGS_PATH mode_w.

Definition append_false_mappings (m : list Mapping) (sort : bool) : io unit :=
  _ ← _write_helper MAPPINGS_HEADER m FALSE_MAPPINGS_PATH mode_a;
  if sort then
    l ← load_false_mappings;
    s ← lift (sorted l mapping_sort_key);
    write_false_mappings s
  else mret tt.

Definition lint_false_mappings : io unit :=
  l ← load_false_mappings;
  s ← lift (sorted l mapping_sort_key);
  write_false_mappings s.

Definition UNSURE_PATH := get_resource_file_path "unsure.tsv".

Definition load_unsure : io (list Mapping) := _load_table UNSURE_PATH.

Definition write_unsure_mappings (m : list Mapping) : io unit :=
  _write_helper MAPPINGS_HEADER m UNSURE_PATH mode_w.

Definition append_unsure_mappings (m : list Mapping) (sort : bool) : io unit :=
  _ ← _write_helper MAPPINGS_HEADER m UNSURE_PATH mode_a;
  if sort then
    l ← load_unsure;
    s ← lift (sorted l mapping_sort_key);
    write_unsure_mappings s
  else mret tt.

Definition lint_unsure_mappings : io unit :=
  l ← load_unsure;
  s ← lift (sorted l mapping_sort_key);
  write_unsure_mappings s.

Definition PREDICTIONS_PATH := get_resource_file_path "predictions.tsv".

Definition load_predictions : io (list Mapping) := _load_table PREDICTIONS_PATH.

Definition write_predictions (m : list Mapping) : io unit :=
  _write_helper PREDICTIONS_HEADER m PREDICTIONS_PATH mode_w.

Definition append_predictions (mappings : list Mapping) (deduplicate sort : bool)
    : io unit :=
  mappings ←
    (if deduplicate then
       m ← load_mappings;
       f ← load_false_mappings;
       p ← load_predictions;
       keys ← lift (comprehension get_canonical_tuple (m ++ f ++ p));
       let existing_mappings : gset (list string) := list_to_set keys in
       kept ← lift (comprehension
                      (fun mapping => k ← get_canonical_tuple mapping;
                                      Ok (mapping, bool_decide (k ∉ existing_mappings)))
                      mappings);
       mret (fst <$> filter (fun mk => mk.2 = true) kept)
     else mret mappings);
  _ ← _write_helper PREDICTIONS_HEADER mappings PREDICTIONS_PATH mode_a;
  if sort then
    l ← load_predictions;
    s ← lift (sorted l mapping_sort_key);
    write_predictions s
  else mret tt.

Definition lint_predictions : io unit :=
  l ← load_predictions;
  s ← lift (sorted l mapping_sort_key);
  write_predictions s.

Definition load_curators : io (list Mapping) :=
  _load_table (get_resource_file_path "curators.tsv").

Definition filter_predictions
    (custom_filter : gmap string (gmap string (gmap string string))) : io unit :=
  predictions ← load_predictions;
  checked ← lift (comprehension
                    (fun prediction => b ← _check_filter prediction custom_filter;
                                       Ok (prediction, b))
                    predictions);
  write_predictions (fst <$> filter (fun pb => pb.2 = true) checked).
End Resources.

(** ** The typed tuples

    A [NamedTuple] does not enforce its annotations: the fields hold Python
    objects, here of an arbitrary type [V] ([str] for every field but the
    confidence of a prediction, a [float]). *)

Module MappingTuple.
Record t (V : Type) := mk {
  source_prefix : V;
  source_id : V;
  source_name : V;
  relation : V;
  target_prefix : V;
  target_identifier : V;
  target_name : V;
  type : V;
  source : V
}.
Arguments mk {V}.

(** Iterating over the tuple. *)
Definition to_list {V} (self : t V) : list V :=
  let 'mk a b c d e f g h i := self in [a; b; c; d; e; f; g; h; i].

Definition as_dict {V} (self : t V) : gmap string V :=
  dict (zip MAPPINGS_HEADER (to_list self)).

Definition from_dict {V} (mapping : gmap string V) : result (t V) :=
  args ← comprehension (getitem mapping) MAPPINGS_HEADER;
  match args with
  | [a; b; c; d; e; f; g; h; i] => Ok (mk a b c d e f g h i)
  | _ => Raise TypeError
  end.
End MappingTuple.

Module PredictionTuple.
Record t (V : Type) := mk {
  source_prefix : V;
  source_id : V;
  source_name : V;
  relation : V;
  target_prefix : V;
  target_identifier : V;
  target_name : V;
  type : V;
  confidence : V;
  source : V
}.
Arguments mk {V}.

Definition to_list {V} (self : t V) : list V :=
  let 'mk a b c d e f g h i j := self in [a; b; c; d; e; f; g; h; i; j].

Definition as_dict {V} (self : t V) : gmap string V :=
  dict (zip PREDICTIONS_HEADER (to_list self)).

Definition from_dict {V} (mapping : gmap string V) : result (t V) :=
  args ← comprehension (getitem mapping) PREDICTIONS_HEADER;
  match args with
  | [a; b; c; d; e; f; g; h; i; j] => Ok (mk a b c d e f g h i j)
  | _ => Raise TypeError
  end.
End PredictionTuple.

(** ** The four repositories at once

    The four tables have the same operations up to the header and the file
    name; [table] names them so that a statement can range over all four.
    Predictions are appended without deduplication here; deduplication is
    treated with [append_predictions] itself. *)

Inductive table := true_mappings | false_mappings | unsure | predictions.

Definition header_of (t : table) : list string :=
  match t with
  | predictions => PREDICTIONS_HEADER
  | _ => MAPPINGS_HEADER
  end.

Definition path_of (RESOURCE_PATH : string) (t : table) : string :=
  match t with
  | true_mappings => TRUE_MAPPINGS_PATH RESOURCE_PATH
  | false_mappings => FALSE_MAPPINGS_PATH RESOURCE_PATH
  | unsure => UNSURE_PATH RESOURCE_PATH
  | predictions => PREDICTIONS_PATH RESOURCE_PATH
  end.

Definition load (RESOURCE_PATH : string) (t : table) : io (list Mapping) :=
  match t with
  | true_mappings => load_mappings RESOURCE_PATH
  | false_mappings => load_false_mappings RESOURCE_PATH
  | unsure => load_unsure RESOURCE_PATH
  | predictions => load_predictions RESOURCE_PATH
  end.

Definition write (RESOURCE_PATH : string) (t : table) (m : list Mapping) : io unit :=
  match t with
  | true_mappings => write_true_mappings RESOURCE_PATH m
  | false_mappings => write_false_mappings RESOURCE_PATH m
  | unsure => write_unsure_mappings RESOURCE_PATH m
  | predictions => write_predictions RESOURCE_PATH m
  end.

Definition append (RESOURCE_PATH : string) (t : table) (m : list Mapping) (sort : bool)
    : io unit :=
  match t with
  | true_mappings => append_true_mappings RESOURCE_PATH m sort
  | false_mappings => append_false_mappings RESOURCE_PATH m sort
  | unsure => append_unsure_mappings RESOURCE_PATH m sort
  | predictions => append_predictions RESOURCE_PATH m false sort
  end.

Definition lint (RESOURCE_PATH : string) (t : table) : io unit :=
  match t with
  | true_mappings => lint_true_mappings RESOURCE_PATH
  | false_mappings => lint_false_mappings RESOURCE_PATH
  | unsure => lint_unsure_mappings RESOURCE_PATH
  | predictions => lint_predictions RESOURCE_PATH
  end.

(** ** Well-formed tables

    The vocabulary of the statements: the text of a table, the values the
    format can carry, and the pure counterparts of the key and of the sort. *)

Fixpoint all_chars (p : ascii -> bool) (s : string) : bool :=
  match s with
  | EmptyString => true
  | String c s' => p c && all_chars p s'
  end.

Definition plain_char (c : ascii) : bool :=
  negb (Ascii.eqb c TAB) && negb (Ascii.eqb c LF) && negb (Ascii.eqb c CR).

(** A value that a line of the file carries as it is: no tab, no line break,
    no double quote in front (the reader would take it for the start of a
    quoted field), and within the reader's field limit. *)
Definition plain (s : string) : bool :=
  all_chars plain_char s
  && negb (String.prefix (String QUOTE "") s)
  && (N.of_nat (String.length s) <=? field_limit)%N.

(** A row that a line of the file carries as it is.  The line of a single
    empty field is empty, and reads back as a row with no field. *)
Definition plain_row (row : list string) : bool :=
  forallb plain row && negb (bool_decide (row = [""])).

Definition text_of_rows (rows : list (list string)) : string :=
  foldr (fun row text => print_text row +:+ text) "" rows.

(** [[line[k] for k in header]] for a record that has every column. *)
Definition row_of (header : list string) (line : Mapping) : list string :=
  (fun k => default "" (line !! k)) <$> header.

Definition rows_text (header : list string) (records : list Mapping) : string :=
  text_of_rows (row_of header <$> records).

(** The file of a table: the header line, then one line per record. *)
Definition table_text (header : list string) (records : list Mapping) : string :=
  print_text header +:+ rows_text header records.

(** The record has every column of the list. *)
Definition has_columns (columns : list string) (r : Mapping) : Prop :=
  forall k, k ∈ columns -> is_Some (r !! k).

(** The record has every column of the header, with a plain value. *)
Definition wf_record (header : list string) (r : Mapping) : bool :=
  forallb (fun k => match r !! k with Some v => plain v | None => false end) header.

(** The record has the columns of the header and no other. *)
Definition schema_record (header : list string) (r : Mapping) : bool :=
  wf_record header r && bool_decide (dom r = list_to_set header).

(** What is left of a record once written and read back: its columns of the
    header. *)
Definition project (header : list string) (r : Mapping) : Mapping :=
  dict (zip header (row_of header r)).

(** The columns [mapping_sort_key] reads, in its order. *)
Definition KEY_COLUMNS : list string :=
  [ "source prefix"; "source identifier"; "relation"; "target prefix";
    "target identifier"; "type"; "source" ].

(** The key of a record that has the seven columns of the key. *)
Definition key_of (r : Mapping) : list string :=
  (fun k => default "" (r !! k)) <$> KEY_COLUMNS.

(** What the statements need of a header: distinct plain names, at least
    two of them, the columns of the key among them. *)
Definition good_header (header : list string) : bool :=
  bool_decide (NoDup header)
  && forallb plain header
  && bool_decide (2 <= length header)
  && forallb (fun k => bool_decide (k ∈ header)) KEY_COLUMNS.

Definition sort_records (l : list Mapping) : list Mapping :=
  snd <$> sort_decorated ((fun r => (key_of r, r)) <$> l).

(** Non-decreasing keys, each one compared with the next. *)
Fixpoint non_decreasing (keys : list (list string)) : bool :=
  match keys with
  | k1 :: ((k2 :: _) as keys') => tuple_le k1 k2 && non_decreasing keys'
  | _ => true
  end.

(** The file at [path] holds the table [records] of the schema [header]. *)
Definition holds_table (fs : filesystem) (path : string) (header : list string)
    (records : list Mapping) : Prop :=
  fs !! path = Some (table_text header records) /\
  forallb (schema_record header) records = true.

(** [op] runs to its end on [fs], and the table [t] then loads as
    [records]. *)
Definition table_after (RESOURCE_PATH : string) (t : table) (op : io unit)
    (fs : filesystem) (records : list Mapping) : Prop :=
  exists fs', op fs = (fs', Ok tt) /\
              load RESOURCE_PATH t fs' = (fs', Ok records).

(** [custom_filter[source_prefix][target_prefix][source_id]], when the three
    levels have the keys. *)
Definition filter_entry (custom_filter : gmap string (gmap string (gmap string string)))
    (source_prefix target_prefix source_id : string) : option string :=
  by_target ← custom_filter !! source_prefix;
  by_source_id ← by_target !! target_prefix;
  by_source_id !! source_id.

(** The filter names the target identifier of the record under the source
    prefix, target prefix and source identifier of the record. *)
Definition excluded (custom_filter : gmap string (gmap string (gmap string string)))
    (p : Mapping) : Prop :=
  filter_entry custom_filter
    (default "" (p !! "source prefix"))
    (default "" (p !! "target prefix"))
    (default "" (p !! "source identifier"))
  = Some (default "" (p !! "target identifier")).

Global Instance excluded_dec custom_filter p : Decision (excluded custom_filter p).
Proof. unfold excluded. apply _. Defined.

(** The keys of the three tables that deduplication consults. *)
Definition existing_keys (true_ false_ predicted : list Mapping) : list (list string) :=
  key_of <$> (true_ ++ false_ ++ predicted).

(** The incoming records that deduplication lets through. *)
Definition survivors (existing : list (list string)) (incoming : list Mapping)
    : list Mapping :=
  filter (fun p => key_of p ∉ existing) incoming.

(** ** Sample data *)

Definition named_mapping (source_prefix source_name : string) : Mapping :=
  dict (zip MAPPINGS_HEADER
    [ source_prefix; "1"; source_name; "skos:exactMatch"; "mesh"; "D1"; "beta";
      "manually_reviewed"; "orcid:0000" ]).

Definition sample_mapping (source_prefix : string) : Mapping :=
  named_mapping source_prefix "alpha".

Definition sample_prediction
    (source_prefix source_id target_prefix target_id confidence : string) : Mapping :=
  dict (zip PREDICTIONS_HEADER
    [ source_prefix; source_id; "alpha"; "skos:exactMatch"; target_prefix;
      target_id; "beta"; "lexical"; confidence; "gilda" ]).

(** The text [s] between two double quotes. *)
Definition in_quotes (s : string) : string := String QUOTE (s +:+ String QUOTE "").

(** A resource directory whose true-mappings table has the one row [b]. *)
Definition sample_fs : filesystem :=
  {[ TRUE_MAPPINGS_PATH "resources" :=
       table_text MAPPINGS_HEADER [sample_mapping "b"] ]}.

(** A resource directory whose true-mappings table has one row, with the
    given source name. *)
Definition named_fs (source_name : string) : filesystem :=
  {[ TRUE_MAPPINGS_PATH "resources" :=
       table_text MAPPINGS_HEADER [named_mapping "a" source_name] ]}.

(** The same table in a file whose last line has no line feed. *)
Definition unterminated_fs : filesystem :=
  {[ TRUE_MAPPINGS_PATH "resources" :=
       print_text MAPPINGS_HEADER
       +:+ String.concat (String TAB "") (row_of MAPPINGS_HEADER (sample_mapping "b")) ]}.

(** A resource directory with the four tables: one true mapping, no false
    mapping, one prediction from [ns1:A] to [ns2:B], and an unsure mapping
    with the key of the prediction from [ns1:A] to [ns2:C]. *)
Definition sample_tables : filesystem :=
  {[ TRUE_MAPPINGS_PATH "resources" :=
       table_text MAPPINGS_HEADER [sample_mapping "b"];
     FALSE_MAPPINGS_PATH "resources" := table_text MAPPINGS_HEADER [];
     UNSURE_PATH "resources" :=
       table_text MAPPINGS_HEADER
         [project MAPPINGS_HEADER (sample_prediction "ns1" "A" "ns2" "C" "0.7")];
     PREDICTIONS_PATH "resources" :=
       table_text PREDICTIONS_HEADER [sample_prediction "ns1" "A" "ns2" "B" "0.9"] ]}.

(** ** Appending typed tuples

    The fields of the tuples are strings here, which [print] writes as they
    are; a confidence that is a float is represented by the text that
    [print] writes for it. *)

(** [append_true_mappings(mapping.as_dict() for mapping in mappings)] *)
Definition append_true_mapping_tuples (RESOURCE_PATH : string)
    (mappings : list (MappingTuple.t string)) : io unit :=
  append_true_mappings RESOURCE_PATH (MappingTuple.as_dict <$> mappings) false.

Definition append_prediction_tuples (RESOURCE_PATH : string)
    (prediction_tuples : list (PredictionTuple.t string)) (deduplicate sort : bool)
    : io unit :=
  append_predictions RESOURCE_PATH
    (PredictionTuple.as_dict <$> prediction_tuples) deduplicate sort.

(** ** Lines and files

    More vocabulary of the statements. *)


(** The text [s] with the line ends of a DOS file: CR LF for every line
    feed. *)
Fixpoint crlf (s : string) : string :=
  match s with
  | EmptyString => EmptyString
  | String c s' =>
      if Ascii.eqb c LF then String CR (String LF (crlf s')) else String c (crlf s')
  end.

(** The computation [m] leaves every file but the one at [path] as it was,
    whether it returns or raises. *)
Definition changes_only {A} (path : string) (m : io A) : Prop :=
  forall fs fs' r, m fs = (fs', r) -> forall p, p <> path -> fs' !! p = fs !! p.

(** * Properties *)

(** ** Strings *)

Lemma append_cons c s t : String c s +:+ t = String c (s +:+ t).
Proof. reflexivity. Qed.

Lemma append_nil_l s : "" +:+ s = s.
Proof. reflexivity. Qed.

Lemma append_nil_r s : s +:+ "" = s.
Proof. induction s as [|c s IH]; [done|]. by rewrite append_cons, IH. Qed.

Lemma append_assoc s t u : (s +:+ t) +:+ u = s +:+ (t +:+ u).
Proof. induction s as [|c s IH]; [done|]. by rewrite !append_cons, IH. Qed.

Lemma length_append s t : String.length (s +:+ t) = String.length s + String.length t.
Proof. induction s as [|c s IH]; [done|]. rewrite append_cons. simpl. by rewrite IH. Qed.

Lemma all_chars_append p s t : all_chars p (s +:+ t) = all_chars p s && all_chars p t.
Proof.
  induction s as [|c s IH]; [done|].
  rewrite append_cons. simpl. rewrite IH. by rewrite andb_assoc.
Qed.

Lemma all_chars_impl (p q : ascii -> bool) s :
  (forall c, p c = true -> q c = true) -> all_chars p s = true -> all_chars q s = true.
Proof.
  intros Hpq. induction s as [|c s IH]; [done|]. simpl.
  intros [Hc Hs]%andb_true_iff. rewrite (Hpq _ Hc). simpl. auto.
Qed.

Lemma plain_char_spec c :
  plain_char c = true <-> c <> TAB /\ c <> LF /\ c <> CR.
Proof.
  unfold plain_char. rewrite !andb_true_iff, !negb_true_iff, !Ascii.eqb_neq. tauto.
Qed.

(** ** Reading back what was printed *)

Lemma universal_newlines_id s :
  all_chars (fun c => negb (Ascii.eqb c CR)) s = true -> universal_newlines s = s.
Proof.
  induction s as [|c s IH]; [done|]. simpl.
  intros [Hc Hs]%andb_true_iff. apply negb_true_iff in Hc. rewrite Hc.
  by rewrite IH.
Qed.

Lemma iter_lines_line body rest :
  all_chars (fun c => negb (Ascii.eqb c LF)) body = true ->
  iter_lines (body +:+ String LF rest) = (body +:+ String LF "") :: iter_lines rest.
Proof.
  induction body as [|c body IH]; [done|].
  rewrite !append_cons. simpl. intros [Hc Hs]%andb_true_iff.
  apply negb_true_iff in Hc. rewrite Hc. by rewrite IH.
Qed.

Lemma parse_chars_append self s t :
  parse_chars self (s +:+ t) = self' ← parse_chars self s; parse_chars self' t.
Proof.
  revert self. induction s as [|c s IH]; intros self; [done|].
  rewrite append_cons. simpl. destruct (parse_process_char self (Some c)); [|done].
  simpl. apply IH.
Qed.

Lemma plain_char_not_newline c : plain_char c = true -> is_newline c = false.
Proof.
  intros (_ & HLF & HCR)%plain_char_spec. unfold is_newline.
  apply Ascii.eqb_neq in HLF, HCR. by rewrite HLF, HCR.
Qed.

Lemma plain_char_not_tab c : plain_char c = true -> Ascii.eqb c TAB = false.
Proof. intros (H & _)%plain_char_spec. by apply Ascii.eqb_neq. Qed.

(** The characters of a field, once the field has begun. *)
Lemma parse_chars_in_field s : forall fs acc,
  all_chars plain_char s = true ->
  (N.of_nat (String.length (acc +:+ s)) <= field_limit)%N ->
  parse_chars {| state := IN_FIELD; fields := fs; field := acc |} s
  = Ok {| state := IN_FIELD; fields := fs; field := acc +:+ s |}.
Proof.
  induction s as [|c s IH]; intros fs acc Hs Hlen.
  { by rewrite append_nil_r. }
  simpl in Hs. apply andb_true_iff in Hs as [Hc Hs].
  simpl. unfold parse_process_char. simpl.
  rewrite (plain_char_not_newline _ Hc), (plain_char_not_tab _ Hc).
  unfold parse_add_char. simpl.
  rewrite length_append in Hlen. simpl in Hlen.
  destruct (N.leb_spec field_limit (N.of_nat (String.length acc))) as [Hle|Hlt].
  { exfalso. revert Hlen Hle. generalize field_limit. lia. }
  simpl. rewrite IH; [|done|].
  - by rewrite append_assoc.
  - rewrite append_assoc, append_cons, append_nil_l, length_append. done.
Qed.

Lemma plain_inv s :
  plain s = true ->
  all_chars plain_char s = true /\
  String.prefix (String QUOTE "") s = false /\
  (N.of_nat (String.length s) <= field_limit)%N.
Proof.
  unfold plain. rewrite !andb_true_iff, negb_true_iff, N.leb_le. tauto.
Qed.

(** A whole field, from the state that expects one. *)
Lemma parse_chars_field f fs :
  plain f = true ->
  parse_chars {| state := START_FIELD; fields := fs; field := "" |} f
  = Ok (match f with
        | "" => {| state := START_FIELD; fields := fs; field := "" |}
        | _ => {| state := IN_FIELD; fields := fs; field := f |}
        end).
Proof.
  intros (Hs & Hq & Hlen)%plain_inv. destruct f as [|c f]; [done|].
  simpl in Hs. apply andb_true_iff in Hs as [Hc Hs].
  simpl. unfold parse_process_char, start_field. simpl.
  rewrite (plain_char_not_newline _ Hc), (plain_char_not_tab _ Hc).
  assert (Ascii.eqb c QUOTE = false) as ->.
  { simpl in Hq. destruct (Ascii.ascii_dec QUOTE c) as [<-|Hne].
    - by destruct f.
    - by apply Ascii.eqb_neq. }
  unfold parse_add_char. simpl.
  apply (parse_chars_in_field f fs (String c "")); [done|].
  by rewrite append_cons.
Qed.

Lemma parse_chars_field_tab f fs rest :
  plain f = true ->
  parse_chars {| state := START_FIELD; fields := fs; field := "" |}
    (f +:+ String TAB rest)
  = parse_chars {| state := START_FIELD; fields := fs ++ [f]; field := "" |} rest.
Proof.
  intros Hf. rewrite parse_chars_append, (parse_chars_field _ _ Hf).
  by destruct f.
Qed.

Lemma parse_chars_field_lf f fs :
  plain f = true ->
  parse_chars {| state := START_FIELD; fields := fs; field := "" |}
    (f +:+ String LF "")
  = Ok {| state := EAT_CRNL; fields := fs ++ [f]; field := "" |}.
Proof.
  intros Hf. rewrite parse_chars_append, (parse_chars_field _ _ Hf).
  by destruct f.
Qed.

Lemma concat_cons sep x y l :
  String.concat sep (x :: y :: l) = x +:+ sep +:+ String.concat sep (y :: l).
Proof. reflexivity. Qed.

(** The fields of a line, up to the line feed. *)
Lemma parse_chars_row row : forall fs,
  row <> [] -> forallb plain row = true ->
  parse_chars {| state := START_FIELD; fields := fs; field := "" |} (print_text row)
  = Ok {| state := EAT_CRNL; fields := fs ++ row; field := "" |}.
Proof.
  unfold print_text.
  induction row as [|f row IH]; intros fs Hne Hrow; [done|].
  simpl in Hrow. apply andb_true_iff in Hrow as [Hf Hrow].
  destruct row as [|g row].
  - simpl. by apply parse_chars_field_lf.
  - rewrite concat_cons, !append_assoc, append_cons, append_nil_l.
    rewrite parse_chars_field_tab by done.
    rewrite IH by done. by rewrite <- app_assoc.
Qed.

Lemma print_text_first row :
  plain_row row = true -> row <> [] ->
  exists c rest, print_text row = String c rest /\ is_newline c = false.
Proof.
  unfold plain_row, print_text.
  intros [Hrow Hne]%andb_true_iff Hnil.
  apply negb_true_iff, bool_decide_eq_false in Hne.
  destruct row as [|f row]; [done|].
  simpl in Hrow. apply andb_true_iff in Hrow as [Hf Hrow].
  destruct f as [|c f].
  - destruct row as [|g row]; [done|].
    rewrite concat_cons. eexists _, _. split; [reflexivity|done].
  - apply plain_inv in Hf as (Hs & _). simpl in Hs.
    apply andb_true_iff in Hs as [Hc _].
    destruct row as [|g row]; simpl; rewrite ?append_cons;
      (eexists _, _; split; [reflexivity|by apply plain_char_not_newline]).
Qed.

(** A printed line is read back as the row that was printed. *)
Lemma parse_line_print_text row :
  plain_row row = true ->
  parse_line parse_reset (print_text row)
  = Ok {| state := START_RECORD; fields := row; field := "" |}.
Proof.
  intros Hrow. destruct (decide (row = [])) as [->|Hne]; [done|].
  destruct (print_text_first row Hrow Hne) as (c & rest & Hline & Hc).
  assert (parse_chars parse_reset (print_text row)
          = parse_chars {| state := START_FIELD; fields := []; field := "" |}
              (print_text row)) as Hstart.
  { rewrite Hline. simpl. unfold parse_process_char. simpl. by rewrite Hc. }
  unfold parse_line. rewrite Hstart.
  apply andb_true_iff in Hrow as [Hrow _].
  by rewrite parse_chars_row.
Qed.

Lemma reader_rows_print_text rows :
  forallb plain_row rows = true ->
  reader_rows parse_reset (print_text <$> rows) = Ok rows.
Proof.
  induction rows as [|row rows IH]; [done|].
  cbn [forallb]. intros [Hrow Hrows]%andb_true_iff.
  rewrite fmap_cons. cbn [reader_rows].
  rewrite parse_line_print_text by done. cbn.
  by rewrite IH.
Qed.

Lemma all_chars_concat p sep row :
  all_chars p sep = true ->
  forallb (all_chars p) row = true ->
  all_chars p (String.concat sep row) = true.
Proof.
  intros Hsep. induction row as [|f row IH]; [done|].
  simpl. intros [Hf Hrow]%andb_true_iff.
  destruct row as [|g row]; [done|].
  rewrite !all_chars_append, Hf, Hsep. simpl. by apply IH.
Qed.

Lemma forallb_impl {A} (p q : A -> bool) l :
  (forall x, p x = true -> q x = true) -> forallb p l = true -> forallb q l = true.
Proof.
  intros Hpq. induction l as [|x l IH]; [done|]. simpl.
  intros [Hx Hl]%andb_true_iff. rewrite (Hpq _ Hx). simpl. auto.
Qed.

Lemma plain_row_chars p row :
  (forall c, plain_char c = true -> p c = true) -> p TAB = true ->
  plain_row row = true ->
  all_chars p (String.concat (String TAB "") row) = true.
Proof.
  intros Hp Htab [Hrow _]%andb_true_iff.
  apply all_chars_concat; [by simpl; rewrite Htab|].
  eapply forallb_impl; [|exact Hrow].
  intros f (Hf & _)%plain_inv. by eapply all_chars_impl.
Qed.

Lemma iter_lines_text_of_rows rows :
  forallb plain_row rows = true ->
  iter_lines (text_of_rows rows) = print_text <$> rows.
Proof.
  induction rows as [|row rows IH]; [done|].
  cbn [forallb]. intros [Hrow Hrows]%andb_true_iff.
  rewrite fmap_cons. cbn [text_of_rows foldr].
  unfold print_text at 1. rewrite append_assoc, append_cons, append_nil_l.
  rewrite iter_lines_line.
  - fold (text_of_rows rows). by rewrite IH.
  - apply plain_row_chars; [|done..].
    intros c (_ & HLF & _)%plain_char_spec. by apply negb_true_iff, Ascii.eqb_neq.
Qed.

Lemma universal_newlines_text_of_rows rows :
  forallb plain_row rows = true ->
  universal_newlines (text_of_rows rows) = text_of_rows rows.
Proof.
  intros Hrows. apply universal_newlines_id.
  induction rows as [|row rows IH]; [done|].
  simpl in *. apply andb_true_iff in Hrows as [Hrow Hrows].
  unfold print_text. rewrite !all_chars_append, IH by done.
  rewrite plain_row_chars; [done| |done..].
  intros c (_ & _ & HCR)%plain_char_spec. by apply negb_true_iff, Ascii.eqb_neq.
Qed.

(** The codec round trip: reading the printed text of rows of plain fields
    gives the rows back. *)
Lemma csv_reader_text_of_rows rows :
  forallb plain_row rows = true -> csv_reader (text_of_rows rows) = Ok rows.
Proof.
  intros Hrows. unfold csv_reader.
  rewrite universal_newlines_text_of_rows, iter_lines_text_of_rows by done.
  by apply reader_rows_print_text.
Qed.

(** The reader on inputs that are not printed rows: a quoted field keeps
    its tab, an empty line is a row without fields, CR LF ends a line, and a
    last line needs no line feed. *)
Example csv_reader_quoted_field :
  csv_reader (String QUOTE ("a" +:+ String TAB ("b" +:+ String QUOTE
                (String TAB ("c" +:+ String LF "")))))
  = Ok [["a" +:+ String TAB "b"; "c"]].
Proof. reflexivity. Qed.

Example csv_reader_lines :
  csv_reader ("a" +:+ String TAB ("b" +:+ String CR (String LF
                (String LF ("c" +:+ String TAB "")))))
  = Ok [["a"; "b"]; []; ["c"; ""]].
Proof. reflexivity. Qed.

(** ** Dictionaries and rows *)

Lemma dict_lookup_notin {V} (h : list string) : forall (row : list V) (d : gmap string V) k,
  k ∉ h -> foldl (fun d kv => <[kv.1 := kv.2]> d) d (zip h row) !! k = d !! k.
Proof.
  induction h as [|k0 h IH]; intros row d k Hk; [done|].
  destruct row as [|v row]; [done|]. simpl.
  apply not_elem_of_cons in Hk as [Hne Hk].
  rewrite IH by done. by rewrite lookup_insert_ne.
Qed.

(** [dict(zip(header, row))] pairs the names with the fields by position;
    what is past the end of the shorter list is dropped. *)
Lemma dict_zip_lookup {V} (h : list string) : forall (row : list V) (d : gmap string V) i k,
  NoDup h -> h !! i = Some k ->
  foldl (fun d kv => <[kv.1 := kv.2]> d) d (zip h row) !! k
  = match row !! i with Some v => Some v | None => d !! k end.
Proof.
  induction h as [|k0 h IH]; intros row d i k Hnd Hi; [done|].
  apply NoDup_cons in Hnd as [Hk0 Hnd].
  destruct row as [|v row]; [by destruct i|].
  destruct i as [|i]; simpl in *.
  - injection Hi as ->. rewrite dict_lookup_notin by done. by rewrite lookup_insert_eq.
  - rewrite (IH _ _ i) by done.
    destruct (row !! i); [done|]. rewrite lookup_insert_ne; [done|].
    intros ->. apply Hk0. by eapply list_elem_of_lookup_2.
Qed.

Lemma project_lookup h r k :
  project h r !! k = if decide (k ∈ h) then Some (default "" (r !! k)) else None.
Proof.
  unfold project, dict, row_of.
  assert (forall d : Mapping,
    foldl (fun d kv => <[kv.1 := kv.2]> d) d
      (zip h ((fun k => default "" (r !! k)) <$> h)) !! k
    = if decide (k ∈ h) then Some (default "" (r !! k)) else d !! k) as Hgen.
  { induction h as [|k0 h IH]; intros d; [done|].
    rewrite fmap_cons. simpl. rewrite IH.
    destruct (decide (k ∈ h)) as [Hin|Hnin].
    - rewrite decide_True; [done|by right].
    - destruct (decide (k = k0)) as [->|Hne].
      + rewrite decide_True by left. by rewrite lookup_insert_eq.
      + rewrite decide_False by (by intros [?|?]%elem_of_cons).
        by rewrite lookup_insert_ne. }
  rewrite Hgen. by destruct (decide (k ∈ h)).
Qed.

Lemma wf_record_lookup h r k :
  wf_record h r = true -> k ∈ h -> exists v, r !! k = Some v /\ plain v = true.
Proof.
  unfold wf_record. rewrite forallb_forall. intros Hwf Hk.
  specialize (Hwf k). rewrite <- list_elem_of_In in Hwf. specialize (Hwf Hk).
  destruct (r !! k) as [v|]; [eauto|done].
Qed.

Lemma schema_record_wf h r : schema_record h r = true -> wf_record h r = true.
Proof. by intros [? _]%andb_true_iff. Qed.

Lemma schema_record_dom h r k :
  schema_record h r = true -> k ∉ h -> r !! k = None.
Proof.
  intros [_ Hdom%bool_decide_eq_true]%andb_true_iff Hk.
  apply not_elem_of_dom. rewrite Hdom. by rewrite elem_of_list_to_set.
Qed.

(** A record of the schema is written and read back unchanged. *)
Lemma project_schema_record h r : schema_record h r = true -> project h r = r.
Proof.
  intros Hr. apply map_eq. intros k. rewrite project_lookup.
  destruct (decide (k ∈ h)) as [Hk|Hk].
  - destruct (wf_record_lookup h r k (schema_record_wf _ _ Hr) Hk) as (v & -> & _). done.
  - by rewrite (schema_record_dom h r k).
Qed.

Lemma project_lookup_wf h r k :
  wf_record h r = true -> k ∈ h -> project h r !! k = r !! k.
Proof.
  intros Hr Hk. rewrite project_lookup, decide_True by done.
  by destruct (wf_record_lookup h r k Hr Hk) as (v & -> & _).
Qed.

Lemma row_of_project h r : row_of h (project h r) = row_of h r.
Proof.
  unfold row_of. apply list_fmap_ext. intros i k Hk.
  rewrite project_lookup, decide_True; [done|]. by eapply list_elem_of_lookup_2.
Qed.

Lemma project_schema h r :
  wf_record h r = true -> schema_record h (project h r) = true.
Proof.
  intros Hr. unfold schema_record. apply andb_true_iff. split.
  - unfold wf_record. apply forallb_forall. intros k Hk%list_elem_of_In.
    rewrite project_lookup_wf by done.
    by destruct (wf_record_lookup h r k Hr Hk) as (v & -> & ?).
  - apply bool_decide_eq_true. apply set_eq. intros k.
    rewrite elem_of_dom, elem_of_list_to_set, project_lookup.
    destruct (decide (k ∈ h)); [by split; eauto|].
    split; [by intros [? ?]|done].
Qed.

Lemma length_row_of h r : length (row_of h r) = length h.
Proof. unfold row_of. by rewrite length_fmap. Qed.

Lemma row_of_plain h r :
  wf_record h r = true -> forallb plain (row_of h r) = true.
Proof.
  intros Hr. apply forallb_forall. intros v Hv%list_elem_of_In.
  unfold row_of in Hv. apply list_elem_of_fmap in Hv as (k & -> & Hk).
  by destruct (wf_record_lookup h r k Hr Hk) as (v & -> & ?).
Qed.

Lemma good_header_inv h :
  good_header h = true ->
  NoDup h /\ forallb plain h = true /\ 2 <= length h /\
  (forall k, k ∈ KEY_COLUMNS -> k ∈ h).
Proof.
  unfold good_header. rewrite !andb_true_iff, !bool_decide_eq_true.
  intros (((? & ?) & ?) & Hkeys). repeat split; try done.
  intros k Hk. rewrite forallb_forall in Hkeys.
  apply list_elem_of_In in Hk. by eapply bool_decide_eq_true, Hkeys.
Qed.

Lemma good_header_of t : good_header (header_of t) = true.
Proof. by destruct t; vm_compute. Qed.

Lemma plain_row_long row :
  forallb plain row = true -> 2 <= length row -> plain_row row = true.
Proof.
  intros Hrow Hlen. unfold plain_row. rewrite Hrow. simpl.
  apply negb_true_iff, bool_decide_eq_false. intros ->. simpl in Hlen. lia.
Qed.

Lemma row_of_plain_row h r :
  good_header h = true -> wf_record h r = true -> plain_row (row_of h r) = true.
Proof.
  intros (_ & _ & Hlen & _)%good_header_inv Hr.
  apply plain_row_long; [by apply row_of_plain|by rewrite length_row_of].
Qed.

(** ** Comprehensions *)

Lemma comprehension_ok {A B} (f : A -> result B) (g : A -> B) l :
  (forall x, x ∈ l -> f x = Ok (g x)) -> comprehension f l = Ok (g <$> l).
Proof.
  induction l as [|x l IH]; intros Hl; [done|].
  simpl. rewrite Hl by left. simpl. rewrite IH; [done|].
  intros y Hy. apply Hl. by right.
Qed.

Lemma getitem_row_of h r :
  has_columns h r ->
  comprehension (getitem r) h = Ok (row_of h r).
Proof.
  intros Hr. apply comprehension_ok. intros k Hk.
  unfold getitem. by destruct (Hr k Hk) as [v ->].
Qed.

Lemma wf_record_is_Some h r k : wf_record h r = true -> k ∈ h -> is_Some (r !! k).
Proof. intros Hr Hk. destruct (wf_record_lookup h r k Hr Hk) as (v & -> & _). eauto. Qed.

(** ** The order on keys *)

Lemma tuple_compare_antisym a : forall b,
  tuple_compare a b = CompOpp (tuple_compare b a).
Proof.
  induction a as [|x a IH]; intros [|y b]; try done.
  simpl. rewrite (String.compare_antisym y x).
  destruct (String.compare x y); simpl; auto.
Qed.

Lemma string_compare_refl s : String.compare s s = Eq.
Proof.
  induction s as [|c s IH]; [done|]. simpl.
  unfold Ascii.compare. by rewrite N.compare_refl.
Qed.

Lemma tuple_compare_refl a : tuple_compare a a = Eq.
Proof.
  induction a as [|x a IH]; [done|]. simpl. by rewrite string_compare_refl.
Qed.

Lemma tuple_compare_eq a : forall b, tuple_compare a b = Eq -> a = b.
Proof.
  induction a as [|x a IH]; intros [|y b]; try done.
  simpl. destruct (String.compare x y) eqn:Hxy; try done.
  apply String.compare_eq_iff in Hxy as ->. intros ?. f_equal. auto.
Qed.

Lemma tuple_lt_le a b : tuple_lt a b = true -> tuple_le a b = true.
Proof. unfold tuple_lt, tuple_le. by destruct (tuple_compare a b). Qed.

Lemma tuple_le_not_lt a b : tuple_le a b = negb (tuple_lt b a).
Proof.
  unfold tuple_lt, tuple_le. rewrite (tuple_compare_antisym b a).
  by destruct (tuple_compare a b).
Qed.

Lemma tuple_le_refl a : tuple_le a a = true.
Proof. unfold tuple_le. by rewrite tuple_compare_refl. Qed.

Lemma non_decreasing_cons k ks :
  non_decreasing (k :: ks)
  = match ks with [] => true | k2 :: _ => tuple_le k k2 end && non_decreasing ks.
Proof. by destruct ks. Qed.

(** ** The stable sort *)

Section SortFacts.
Context {A : Type}.
Implicit Types (x : list string * A) (l : list (list string * A)).

Lemma insert_by_key_perm x l : insert_by_key x l ≡ₚ x :: l.
Proof.
  induction l as [|y l IH]; [done|]. simpl.
  destruct (tuple_lt y.1 x.1); [|done].
  rewrite IH. apply Permutation_swap.
Qed.

Lemma sort_decorated_perm l : sort_decorated l ≡ₚ l.
Proof.
  induction l as [|x l IH]; [done|].
  simpl. rewrite insert_by_key_perm. by rewrite IH.
Qed.

Lemma insert_by_key_head x l :
  (exists rest, insert_by_key x l = x :: rest) \/
  (exists y l' rest, l = y :: l' /\ insert_by_key x l = y :: rest /\
                     tuple_lt y.1 x.1 = true).
Proof.
  destruct l as [|y l]; simpl; [by left; eauto|].
  destruct (tuple_lt y.1 x.1) eqn:Hlt; [right|left]; eauto 10.
Qed.

Lemma insert_by_key_sorted x l :
  non_decreasing (fst <$> l) = true ->
  non_decreasing (fst <$> insert_by_key x l) = true.
Proof.
  induction l as [|y l IH]; [done|].
  rewrite fmap_cons, non_decreasing_cons.
  intros [Hhd Hl]%andb_true_iff. simpl.
  destruct (tuple_lt y.1 x.1) eqn:Hlt.
  - rewrite fmap_cons, non_decreasing_cons, (IH Hl), andb_true_r.
    destruct (insert_by_key_head x l) as [(rest & ->)|(z & l' & rest & -> & -> & _)].
    + simpl. by apply tuple_lt_le.
    + done.
  - rewrite !fmap_cons, non_decreasing_cons. simpl.
    rewrite tuple_le_not_lt, Hlt. simpl.
    destruct (l.*1); [done|]. by rewrite Hhd, Hl.
Qed.

(** The result of the sort is in non-decreasing order of the keys. *)
Lemma sort_decorated_sorted l : non_decreasing (fst <$> sort_decorated l) = true.
Proof.
  induction l as [|x l IH]; [done|]. simpl. by apply insert_by_key_sorted.
Qed.

(** Sorting leaves a list in non-decreasing order as it is. *)
Lemma sort_decorated_id l :
  non_decreasing (fst <$> l) = true -> sort_decorated l = l.
Proof.
  induction l as [|x l IH]; [done|].
  rewrite fmap_cons, non_decreasing_cons.
  intros [Hhd Hl]%andb_true_iff. simpl. rewrite (IH Hl).
  destruct l as [|y l]; [done|]. simpl in *.
  rewrite tuple_le_not_lt in Hhd. apply negb_true_iff in Hhd. by rewrite Hhd.
Qed.

Lemma sort_decorated_app l1 l2 :
  sort_decorated (l1 ++ l2) = foldr insert_by_key (sort_decorated l2) l1.
Proof. unfold sort_decorated. by rewrite foldr_app. Qed.

(** Sorting the tail first changes nothing. *)
Lemma sort_decorated_app_sorted l1 l2 :
  sort_decorated (l1 ++ sort_decorated l2) = sort_decorated (l1 ++ l2).
Proof.
  rewrite !sort_decorated_app.
  by rewrite (sort_decorated_id (sort_decorated l2)) by apply sort_decorated_sorted.
Qed.
End SortFacts.

Lemma insert_by_key_fmap {A B} (g : A -> B) (x : list string * A) l :
  insert_by_key (prod_map id g x) (prod_map id g <$> l)
  = prod_map id g <$> insert_by_key x l.
Proof.
  induction l as [|y l IH]; [done|].
  rewrite fmap_cons. simpl. destruct (tuple_lt y.1 x.1); [|done].
  by rewrite fmap_cons, <- IH.
Qed.

Lemma sort_decorated_fmap {A B} (g : A -> B) (l : list (list string * A)) :
  sort_decorated (prod_map id g <$> l) = prod_map id g <$> sort_decorated l.
Proof.
  induction l as [|x l IH]; [done|].
  rewrite fmap_cons. unfold sort_decorated in *. cbn [foldr]. rewrite IH.
  apply insert_by_key_fmap.
Qed.

(** ** Keys and the sort of records *)

Lemma sort_records_perm l : sort_records l ≡ₚ l.
Proof.
  unfold sort_records. rewrite sort_decorated_perm.
  rewrite <- list_fmap_compose. by rewrite list_fmap_id.
Qed.

Lemma sort_decorated_keys (l : list Mapping) :
  sort_decorated ((fun r => (key_of r, r)) <$> l)
  = (fun r => (key_of r, r)) <$> sort_records l.
Proof.
  unfold sort_records. rewrite <- list_fmap_compose.
  symmetry. etrans; [|apply list_fmap_id].
  apply Forall_fmap_ext_1.
  eapply Forall_impl.
  - assert (Forall (fun x : list string * Mapping => x.1 = key_of x.2)
              ((fun r => (key_of r, r)) <$> l)) as H.
    { apply Forall_fmap. by apply Forall_true. }
    revert H. by rewrite <- (sort_decorated_perm (_ <$> l)) at 1.
  - intros [k r] Hk. simpl in *. by rewrite Hk.
Qed.

Lemma sort_records_sorted l : non_decreasing (key_of <$> sort_records l) = true.
Proof.
  pose proof (sort_decorated_sorted ((fun r => (key_of r, r)) <$> l)) as H.
  rewrite sort_decorated_keys, <- list_fmap_compose in H. exact H.
Qed.

Lemma sort_records_id l :
  non_decreasing (key_of <$> l) = true -> sort_records l = l.
Proof.
  intros Hl. unfold sort_records. rewrite sort_decorated_id.
  - rewrite <- list_fmap_compose. apply list_fmap_id.
  - by rewrite <- list_fmap_compose.
Qed.

Lemma sort_records_idemp l : sort_records (sort_records l) = sort_records l.
Proof. apply sort_records_id, sort_records_sorted. Qed.

Lemma sort_records_app_sorted l1 l2 :
  sort_records (l1 ++ sort_records l2) = sort_records (l1 ++ l2).
Proof.
  unfold sort_records at 1 3. rewrite !fmap_app.
  by rewrite <- sort_decorated_keys, sort_decorated_app_sorted.
Qed.

Lemma sort_records_fmap (g : Mapping -> Mapping) l :
  (forall r, r ∈ l -> key_of (g r) = key_of r) ->
  sort_records (g <$> l) = g <$> sort_records l.
Proof.
  intros Hg. unfold sort_records.
  rewrite <- list_fmap_compose.
  rewrite (list_fmap_ext _ (prod_map id g ∘ (fun r => (key_of r, r))) l).
  - rewrite list_fmap_compose, sort_decorated_fmap, <- !list_fmap_compose.
    apply list_fmap_ext. by intros i [k r] _.
  - intros i r Hr. simpl. unfold prod_map. simpl.
    rewrite Hg; [done|]. by eapply list_elem_of_lookup_2.
Qed.

Lemma sort_records_Forall (P : Mapping -> Prop) l :
  Forall P l -> Forall P (sort_records l).
Proof. intros H. by rewrite sort_records_perm. Qed.

Lemma sort_records_elem_of r l : r ∈ sort_records l <-> r ∈ l.
Proof. by rewrite sort_records_perm. Qed.

Lemma mapping_sort_key_ok r :
  has_columns KEY_COLUMNS r ->
  mapping_sort_key r = Ok (key_of r).
Proof.
  intros Hr. unfold has_columns, mapping_sort_key, key_of, getitem, KEY_COLUMNS in *.
  repeat match goal with
  | |- context [ r !! ?k ] =>
      let v := fresh "v" in let Hv := fresh "Hv" in
      assert (is_Some (r !! k)) as [v Hv] by (apply Hr; set_solver);
      rewrite !Hv
  end.
  cbn. repeat match goal with H : r !! _ = Some _ |- _ => rewrite H; clear H end.
  done.
Qed.

Lemma key_of_project h r :
  (forall k, k ∈ KEY_COLUMNS -> k ∈ h) -> wf_record h r = true ->
  key_of (project h r) = key_of r.
Proof.
  intros Hh Hr. unfold key_of. apply list_fmap_ext. intros i k Hk.
  rewrite project_lookup_wf; [done..|]. eapply Hh, list_elem_of_lookup_2, Hk.
Qed.

Lemma sorted_ok l :
  Forall (has_columns KEY_COLUMNS) l ->
  sorted l mapping_sort_key = Ok (sort_records l).
Proof.
  intros Hl. unfold sorted, sort_records.
  rewrite (comprehension_ok _ (fun r => (key_of r, r))); [done|].
  intros r Hr. rewrite Forall_forall in Hl.
  by rewrite mapping_sort_key_ok by by apply Hl.
Qed.

(** ** The effects, step by step *)

Lemma io_bind_ok {A B} (m : io A) (f : A -> io B) fs fs' a :
  m fs = (fs', Ok a) -> (m ≫= f) fs = f a fs'.
Proof. unfold mbind, io_bind. by intros ->. Qed.

Lemma text_of_rows_app rows1 rows2 :
  text_of_rows (rows1 ++ rows2) = text_of_rows rows1 +:+ text_of_rows rows2.
Proof.
  induction rows1 as [|row rows1 IH]; [done|].
  simpl. by rewrite IH, append_assoc.
Qed.

Lemma rows_text_app h l1 l2 : rows_text h (l1 ++ l2) = rows_text h l1 +:+ rows_text h l2.
Proof. unfold rows_text. by rewrite fmap_app, text_of_rows_app. Qed.

Lemma table_text_app h l1 l2 :
  table_text h l1 +:+ rows_text h l2 = table_text h (l1 ++ l2).
Proof. unfold table_text. by rewrite rows_text_app, append_assoc. Qed.

Lemma rows_text_project h l : rows_text h (project h <$> l) = rows_text h l.
Proof.
  unfold rows_text. f_equal. rewrite <- list_fmap_compose.
  apply list_fmap_ext. intros i r _. apply row_of_project.
Qed.

Lemma table_text_project h l : table_text h (project h <$> l) = table_text h l.
Proof. unfold table_text. by rewrite rows_text_project. Qed.

(** Loading a file of printed rows: the first row names the columns. *)
Lemma _load_table_text_of_rows fname fs header rows :
  fs !! fname = Some (text_of_rows (header :: rows)) ->
  forallb plain_row (header :: rows) = true ->
  _load_table fname fs = (fs, Ok ((fun row => dict (zip header row)) <$> rows)).
Proof.
  intros Hfile Hrows. unfold _load_table.
  erewrite io_bind_ok; [|by unfold read_text; rewrite Hfile].
  erewrite io_bind_ok; [|by unfold lift; rewrite csv_reader_text_of_rows].
  done.
Qed.

Lemma forallb_Forall {A} (p : A -> bool) l :
  forallb p l = true <-> Forall (fun x => p x = true) l.
Proof. rewrite forallb_forall, Forall_forall. by setoid_rewrite list_elem_of_In. Qed.

Lemma table_rows_plain h rs :
  good_header h = true ->
  Forall (fun r => wf_record h r = true) rs ->
  forallb plain_row (h :: (row_of h <$> rs)) = true.
Proof.
  intros Hh Hrs. apply forallb_Forall. constructor.
  - apply good_header_inv in Hh as (_ & Hp & Hlen & _). by apply plain_row_long.
  - apply Forall_fmap. eapply Forall_impl; [exact Hrs|].
    intros r Hr. by apply row_of_plain_row.
Qed.

(** Loading the file of a table gives its records, each restricted to the
    columns of the header. *)
Lemma _load_table_table_text fname fs h rs :
  good_header h = true ->
  fs !! fname = Some (table_text h rs) ->
  Forall (fun r => wf_record h r = true) rs ->
  _load_table fname fs = (fs, Ok (project h <$> rs)).
Proof.
  intros Hh Hfile Hrs.
  rewrite (_load_table_text_of_rows fname fs h (row_of h <$> rs)); [|done|].
  - by rewrite <- list_fmap_compose.
  - by apply table_rows_plain.
Qed.

Lemma holds_table_inv fs path h rs :
  holds_table fs path h rs ->
  fs !! path = Some (table_text h rs) /\
  Forall (fun r => schema_record h r = true) rs /\
  Forall (fun r => wf_record h r = true) rs.
Proof.
  intros [Hfile Hrs%forallb_Forall]. repeat split; [done..|].
  eapply Forall_impl; [exact Hrs|]. apply schema_record_wf.
Qed.

Lemma project_schema_records h rs :
  Forall (fun r => schema_record h r = true) rs -> project h <$> rs = rs.
Proof.
  intros Hrs. etrans; [|apply list_fmap_id].
  apply Forall_fmap_ext_1. eapply Forall_impl; [exact Hrs|].
  intros r Hr. by apply project_schema_record.
Qed.

Lemma _load_table_holds fname fs h rs :
  good_header h = true -> holds_table fs fname h rs ->
  _load_table fname fs = (fs, Ok rs).
Proof.
  intros Hh (Hfile & Hs & Hwf)%holds_table_inv.
  rewrite (_load_table_table_text fname fs h rs) by done.
  by rewrite project_schema_records.
Qed.

(** The table that a file holds once records were written to it. *)
Lemma holds_table_insert fs path h l :
  Forall (fun r => wf_record h r = true) l ->
  holds_table (<[path := table_text h l]> fs) path h (project h <$> l).
Proof.
  intros Hl. split.
  - by rewrite lookup_insert_eq, table_text_project.
  - apply forallb_Forall, Forall_fmap. eapply Forall_impl; [exact Hl|].
    intros r Hr. by apply project_schema.
Qed.

Lemma insert_alter (fs : filesystem) path f v :
  <[path := v]> (alter f path fs) = <[path := v]> fs.
Proof.
  apply map_eq. intros k. destruct (decide (k = path)) as [->|Hne].
  - by rewrite !lookup_insert_eq.
  - by rewrite !lookup_insert_ne, lookup_alter_ne.
Qed.

Lemma for_each_print h path : forall l fs text,
  Forall (has_columns h) l ->
  fs !! path = Some text ->
  for_each l (fun line =>
    items ← lift (comprehension (getitem line) h); print path items) fs
  = (<[path := text +:+ rows_text h l]> fs, Ok tt).
Proof.
  induction l as [|r l IH]; intros fs text Hl Hfile.
  { simpl. unfold mret, io_ret, rows_text. simpl.
    by rewrite append_nil_r, insert_id. }
  apply Forall_cons in Hl as [Hr Hl]. simpl.
  erewrite io_bind_ok; cycle 1.
  { erewrite io_bind_ok; [|by unfold lift; rewrite getitem_row_of].
    unfold print. reflexivity. }
  rewrite (IH _ (text +:+ print_text (row_of h r))); [|done|].
  - f_equal. rewrite insert_alter.
    unfold rows_text. rewrite fmap_cons. simpl. by rewrite append_assoc.
  - rewrite lookup_alter_eq, Hfile. done.
Qed.

Lemma wf_has_columns h l :
  Forall (fun r => wf_record h r = true) l ->
  Forall (has_columns h) l.
Proof.
  intros Hl. eapply Forall_impl; [exact Hl|].
  intros r Hr k Hk. exact (wf_record_is_Some h r k Hr Hk).
Qed.

Lemma has_key_columns h l :
  (forall k, k ∈ KEY_COLUMNS -> k ∈ h) ->
  Forall (has_columns h) l ->
  Forall (has_columns KEY_COLUMNS) l.
Proof. intros Hh Hl. eapply Forall_impl; [exact Hl|]. intros r Hr k Hk. auto. Qed.

(** Overwriting: the header line, then the rows in the order of the sort. *)
Lemma _write_helper_w h l path fs :
  (forall k, k ∈ KEY_COLUMNS -> k ∈ h) ->
  Forall (has_columns h) l ->
  _write_helper h l path mode_w fs
  = (<[path := table_text h (sort_records l)]> fs, Ok tt).
Proof.
  intros Hh Hl. unfold _write_helper.
  erewrite io_bind_ok; [|by unfold lift; rewrite sorted_ok by by eapply has_key_columns].
  erewrite io_bind_ok; [|by unfold open_].
  erewrite io_bind_ok; [|by unfold print].
  erewrite for_each_print.
  - f_equal. by rewrite insert_alter, insert_insert_eq.
  - by apply sort_records_Forall.
  - by rewrite lookup_alter_eq, lookup_insert_eq.
Qed.

(** Appending: the rows in the order of the sort, after what the file has;
    a missing file is created. *)
Lemma _write_helper_a h l path fs :
  (forall k, k ∈ KEY_COLUMNS -> k ∈ h) ->
  Forall (has_columns h) l ->
  _write_helper h l path mode_a fs
  = (<[path := default "" (fs !! path) +:+ rows_text h (sort_records l)]> fs, Ok tt).
Proof.
  intros Hh Hl. unfold _write_helper.
  erewrite io_bind_ok; [|by unfold lift; rewrite sorted_ok by by eapply has_key_columns].
  destruct (fs !! path) as [text|] eqn:Hfile.
  - erewrite io_bind_ok; [|by unfold open_; rewrite Hfile].
    erewrite io_bind_ok; [|done].
    erewrite for_each_print; [done| |done].
    by apply sort_records_Forall.
  - erewrite io_bind_ok; [|by unfold open_; rewrite Hfile].
    erewrite io_bind_ok; [|done].
    erewrite for_each_print; [|by apply sort_records_Forall|apply lookup_insert_eq].
    by rewrite insert_insert_eq.
Qed.

(** ** What a call that returns tells *)

Lemma io_bind_inv {A B} (m : io A) (f : A -> io B) fs fs' b :
  (m ≫= f) fs = (fs', Ok b) ->
  exists fs1 a, m fs = (fs1, Ok a) /\ f a fs1 = (fs', Ok b).
Proof.
  unfold mbind, io_bind. destruct (m fs) as [fs1 [a|e]]; [eauto|done].
Qed.

Lemma _load_table_fs fname fs fs' r : _load_table fname fs = (fs', r) -> fs' = fs.
Proof.
  unfold _load_table, mbind, io_bind, read_text, lift, mret, io_ret.
  destruct (fs !! fname); [|by intros [= <-]].
  destruct (csv_reader s) as [[|header rows]|e]; by intros [= <-].
Qed.

Lemma mapping_sort_key_inv r k :
  mapping_sort_key r = Ok k -> has_columns KEY_COLUMNS r /\ k = key_of r.
Proof.
  unfold mapping_sort_key, getitem, key_of, KEY_COLUMNS.
  destruct (r !! "source prefix") eqn:H1; [|done].
  destruct (r !! "source identifier") eqn:H2; [|done].
  destruct (r !! "relation") eqn:H3; [|done].
  destruct (r !! "target prefix") eqn:H4; [|done].
  destruct (r !! "target identifier") eqn:H5; [|done].
  destruct (r !! "type") eqn:H6; [|done].
  destruct (r !! "source") eqn:H7; [|done].
  cbn. intros [= <-]. split.
  - intros c Hc.
    repeat (apply elem_of_cons in Hc as [->|Hc]; [by eexists|]).
    by apply elem_of_nil in Hc.
  - by rewrite H1, H2, H3, H4, H5, H6, H7.
Qed.

Lemma decorate_inv (l : list Mapping) : forall d,
  comprehension (fun x => k ← mapping_sort_key x; Ok (k, x)) l = Ok d ->
  Forall (has_columns KEY_COLUMNS) l /\ d = (fun r => (key_of r, r)) <$> l.
Proof.
  induction l as [|r l IH]; intros d; [by intros [= <-]|].
  cbn [comprehension].
  destruct (mapping_sort_key r) as [k|e] eqn:Hr; [|done].
  apply mapping_sort_key_inv in Hr as [Hr ->]. cbn.
  destruct (comprehension _ l) as [d'|e]; [|done].
  destruct (IH d' eq_refl) as [Hl ->]. cbn. intros [= <-].
  split; [by constructor|done].
Qed.

Lemma sorted_inv l s :
  sorted l mapping_sort_key = Ok s ->
  Forall (has_columns KEY_COLUMNS) l /\ s = sort_records l.
Proof.
  unfold sorted.
  destruct (comprehension _ l) as [d|e] eqn:Hd; [|done].
  apply decorate_inv in Hd as [Hl ->]. cbn. by intros [= <-].
Qed.

Lemma getitem_inv (r : Mapping) h : forall items,
  comprehension (getitem r) h = Ok items -> has_columns h r.
Proof.
  induction h as [|k h IH]; intros items.
  { intros _ c Hc. by apply elem_of_nil in Hc. }
  cbn [comprehension].
  change (getitem r k)
    with (match r !! k with Some v => Ok v | None => Raise (KeyError k) end).
  destruct (r !! k) as [v|] eqn:Hk; [|done]. cbn.
  destruct (comprehension _ h) as [items'|e]; [|done].
  intros _ c [->|Hc]%elem_of_cons; [by eexists|].
  by eapply IH.
Qed.

Lemma for_each_print_inv h path : forall (l : list Mapping) fs fs',
  for_each l (fun line =>
    items ← lift (comprehension (getitem line) h); print path items) fs
  = (fs', Ok tt) ->
  Forall (has_columns h) l.
Proof.
  induction l as [|r l IH]; intros fs fs' Hrun; [done|].
  cbn [for_each] in Hrun.
  apply io_bind_inv in Hrun as (fs1 & [] & Hr & Hl).
  apply io_bind_inv in Hr as (fs0 & items & Hitems & _).
  unfold lift in Hitems. injection Hitems as _ Hitems.
  constructor; [by eapply getitem_inv|by eapply IH].
Qed.

(** A write that returns had records with the columns of the key and of
    the header. *)
Lemma _write_helper_inv h l path mode fs fs' :
  _write_helper h l path mode fs = (fs', Ok tt) ->
  Forall (has_columns KEY_COLUMNS) l /\ Forall (has_columns h) l.
Proof.
  unfold _write_helper. intros Hrun.
  apply io_bind_inv in Hrun as (fs1 & s & Hs & Hrun).
  unfold lift in Hs. injection Hs as _ Hs.
  apply sorted_inv in Hs as [Hkeys ->].
  apply io_bind_inv in Hrun as (fs2 & [] & _ & Hrun).
  apply io_bind_inv in Hrun as (fs3 & [] & _ & Hrun).
  apply for_each_print_inv in Hrun.
  split; [done|]. by rewrite <- (sort_records_perm l).
Qed.

(** ** The four repositories *)

Section Repository.
Variable RESOURCE_PATH : string.
Local Abbreviation path_of := (path_of RESOURCE_PATH).
Local Abbreviation load := (load RESOURCE_PATH).
Local Abbreviation write := (write RESOURCE_PATH).
Local Abbreviation append := (append RESOURCE_PATH).
Local Abbreviation lint := (lint RESOURCE_PATH).

Lemma load_unfold t : load t = _load_table (path_of t).
Proof. by destruct t. Qed.

Lemma write_unfold t m :
  write t m = _write_helper (header_of t) m (path_of t) mode_w.
Proof. by destruct t. Qed.

Lemma lint_unfold t :
  lint t = (l ← load t; s ← lift (sorted l mapping_sort_key); write t s).
Proof. by destruct t. Qed.

Lemma append_unfold t m sort :
  append t m sort
  = (_ ← _write_helper (header_of t) m (path_of t) mode_a;
     if sort then l ← load t; s ← lift (sorted l mapping_sort_key); write t s
     else mret tt).
Proof. by destruct t. Qed.

Lemma header_keys t k : k ∈ KEY_COLUMNS -> k ∈ header_of t.
Proof. by apply good_header_inv, good_header_of. Qed.

Lemma columns_keyed t l :
  Forall (has_columns (header_of t)) l -> Forall (has_columns KEY_COLUMNS) l.
Proof. apply has_key_columns, header_keys. Qed.

Lemma wf_keyed t l :
  Forall (fun r => wf_record (header_of t) r = true) l ->
  Forall (has_columns KEY_COLUMNS) l.
Proof. intros Hl. by eapply columns_keyed, wf_has_columns. Qed.

Lemma load_holds t fs rs :
  holds_table fs (path_of t) (header_of t) rs -> load t fs = (fs, Ok rs).
Proof. rewrite load_unfold. apply _load_table_holds, good_header_of. Qed.

Lemma load_fs t fs fs' r : load t fs = (fs', r) -> fs' = fs.
Proof. rewrite load_unfold. apply _load_table_fs. Qed.

(** Overwriting a table. *)
Lemma write_run t m fs :
  Forall (has_columns (header_of t)) m ->
  write t m fs
  = (<[path_of t := table_text (header_of t) (sort_records m)]> fs, Ok tt).
Proof.
  intros Hm. rewrite write_unfold. by apply _write_helper_w; [apply header_keys|].
Qed.

Lemma write_inv t m fs fs' :
  write t m fs = (fs', Ok tt) -> Forall (has_columns (header_of t)) m.
Proof. rewrite write_unfold. intros Hrun. by apply _write_helper_inv in Hrun as [_ Hm]. Qed.

(** Linting a table. *)
Lemma lint_run t fs rs :
  load t fs = (fs, Ok rs) ->
  Forall (has_columns (header_of t)) rs ->
  lint t fs
  = (<[path_of t := table_text (header_of t) (sort_records rs)]> fs, Ok tt).
Proof.
  intros Hload Hrs. rewrite lint_unfold.
  erewrite io_bind_ok; [|exact Hload].
  erewrite io_bind_ok; [|by unfold lift; rewrite sorted_ok by by eapply columns_keyed].
  rewrite write_run by by apply sort_records_Forall.
  by rewrite sort_records_idemp.
Qed.

Lemma lint_inv t fs fs' :
  lint t fs = (fs', Ok tt) ->
  exists rs, load t fs = (fs, Ok rs) /\ Forall (has_columns (header_of t)) rs.
Proof.
  rewrite lint_unfold. intros Hrun.
  apply io_bind_inv in Hrun as (fs1 & rs & Hload & Hrun).
  pose proof (load_fs _ _ _ _ Hload) as ->.
  apply io_bind_inv in Hrun as (fs2 & s & Hs & Hrun).
  unfold lift in Hs. injection Hs as Hfs2 Hs. subst fs2.
  apply sorted_inv in Hs as [_ ->].
  apply write_inv in Hrun.
  exists rs. split; [done|]. by rewrite <- (sort_records_perm rs).
Qed.

(** A plain append. *)
Lemma append_plain_run t m fs :
  Forall (has_columns (header_of t)) m ->
  append t m false fs
  = (<[path_of t := default "" (fs !! path_of t)
                    +:+ rows_text (header_of t) (sort_records m)]> fs, Ok tt).
Proof.
  intros Hm. rewrite append_unfold.
  erewrite io_bind_ok; [done|]. by apply _write_helper_a; [apply header_keys|].
Qed.

(** An append with [sort=True] is a plain append followed by a lint. *)
Lemma append_sort_unfold t m fs :
  append t m true fs = (_ ← append t m false; lint t) fs.
Proof.
  rewrite !append_unfold, lint_unfold. unfold mbind, io_bind, mret, io_ret.
  by destruct (_write_helper _ _ _ _ _) as [fs1 [[]|e]].
Qed.

Lemma append_sort_inv t m fs fs' :
  append t m true fs = (fs', Ok tt) ->
  exists fs1 l,
    append t m false fs = (fs1, Ok tt) /\
    load t fs1 = (fs1, Ok l) /\
    Forall (has_columns (header_of t)) l /\
    fs' = <[path_of t := table_text (header_of t) (sort_records l)]> fs1.
Proof.
  rewrite append_sort_unfold. intros Hrun.
  apply io_bind_inv in Hrun as (fs1 & [] & Happ & Hlint).
  destruct (lint_inv _ _ _ Hlint) as (l & Hload & Hl).
  rewrite (lint_run t fs1 l Hload Hl) in Hlint. injection Hlint as Hfs'.
  by exists fs1, l.
Qed.

Lemma sort_records_project t l :
  Forall (fun r => wf_record (header_of t) r = true) l ->
  sort_records (project (header_of t) <$> l)
  = project (header_of t) <$> sort_records l.
Proof.
  intros Hl. apply sort_records_fmap. intros r Hr.
  apply key_of_project; [apply header_keys|].
  rewrite Forall_forall in Hl. by apply Hl.
Qed.

Lemma load_insert t fs l :
  Forall (fun r => wf_record (header_of t) r = true) l ->
  load t (<[path_of t := table_text (header_of t) l]> fs)
  = (<[path_of t := table_text (header_of t) l]> fs, Ok (project (header_of t) <$> l)).
Proof. intros Hl. by apply load_holds, holds_table_insert. Qed.

Lemma project_wf t l :
  Forall (fun r => wf_record (header_of t) r = true) l ->
  Forall (fun r => wf_record (header_of t) r = true) (project (header_of t) <$> l).
Proof.
  intros Hl. apply Forall_fmap. eapply Forall_impl; [exact Hl|].
  intros r Hr. simpl. by apply schema_record_wf, project_schema.
Qed.

(** Appending to a table whose file and batch are well formed. *)
Lemma append_run t fs rs m sort :
  holds_table fs (path_of t) (header_of t) rs ->
  Forall (fun r => wf_record (header_of t) r = true) m ->
  append t m sort fs
  = (<[path_of t := table_text (header_of t)
        (if sort then sort_records (rs ++ (project (header_of t) <$> m))
         else rs ++ sort_records (project (header_of t) <$> m))]> fs, Ok tt).
Proof.
  intros Hfs Hm. pose proof Hfs as (Hfile & Hs & Hwf)%holds_table_inv.
  assert (append t m false fs
          = (<[path_of t := table_text (header_of t) (rs ++ sort_records m)]> fs,
             Ok tt)) as Hplain.
  { rewrite append_plain_run by by apply wf_has_columns.
    by rewrite Hfile, <- table_text_app. }
  assert (Forall (fun r => wf_record (header_of t) r = true) (rs ++ sort_records m))
    as Hall by (apply Forall_app; split; [done|by apply sort_records_Forall]).
  assert (project (header_of t) <$> (rs ++ sort_records m)
          = rs ++ sort_records (project (header_of t) <$> m)) as Hproj.
  { by rewrite fmap_app, project_schema_records, sort_records_project. }
  destruct sort.
  - rewrite append_sort_unfold.
    erewrite io_bind_ok; [|exact Hplain].
    erewrite lint_run; [|by apply load_insert|by apply wf_has_columns, project_wf].
    by rewrite insert_insert_eq, Hproj, sort_records_app_sorted.
  - rewrite Hplain, <- Hproj. by rewrite table_text_project.
Qed.

Lemma table_after_insert t op fs l :
  op fs = (<[path_of t := table_text (header_of t) l]> fs, Ok tt) ->
  Forall (fun r => wf_record (header_of t) r = true) l ->
  table_after RESOURCE_PATH t op fs (project (header_of t) <$> l).
Proof. intros Hop Hl. eexists. split; [exact Hop|by apply load_insert]. Qed.

(** An append with [sort=True] ends as an overwrite with the old records
    followed by the batch. *)
Lemma append_sort_write t fs rs m :
  holds_table fs (path_of t) (header_of t) rs ->
  Forall (fun r => wf_record (header_of t) r = true) m ->
  exists fs',
    append t m true fs = (fs', Ok tt) /\ write t (rs ++ m) fs = (fs', Ok tt).
Proof.
  intros Hfs Hm. pose proof Hfs as (Hfile & Hs & Hwf)%holds_table_inv.
  assert (Forall (fun r => wf_record (header_of t) r = true) (rs ++ m)) as Hall
    by (apply Forall_app; by split).
  eexists. split; [by apply (append_run t fs rs m true)|].
  rewrite write_run by by apply wf_has_columns.
  do 2 f_equal.
  rewrite <- (table_text_project _ (sort_records (rs ++ m))).
  rewrite <- sort_records_project by done.
  by rewrite fmap_app, project_schema_records.
Qed.

(** The table after an append. *)
Lemma append_after t fs rs m sort :
  holds_table fs (path_of t) (header_of t) rs ->
  Forall (fun r => wf_record (header_of t) r = true) m ->
  table_after RESOURCE_PATH t (append t m sort) fs
    (if sort then sort_records (rs ++ (project (header_of t) <$> m))
     else rs ++ sort_records (project (header_of t) <$> m)).
Proof.
  intros Hfs Hm. pose proof Hfs as (Hfile & Hs & Hwf)%holds_table_inv.
  assert (Forall (fun r => schema_record (header_of t) r = true)
            (project (header_of t) <$> m)) as Hsm.
  { apply Forall_fmap. eapply Forall_impl; [exact Hm|].
    intros r Hr. by apply project_schema. }
  set (after := if sort then sort_records (rs ++ (project (header_of t) <$> m))
                else rs ++ sort_records (project (header_of t) <$> m)).
  assert (Forall (fun r => schema_record (header_of t) r = true) after) as Hafter.
  { unfold after. destruct sort.
    - apply sort_records_Forall, Forall_app. by split.
    - apply Forall_app. split; [done|]. by apply sort_records_Forall. }
  replace after with (project (header_of t) <$> after)
    by by apply project_schema_records.
  apply table_after_insert.
  - by apply append_run.
  - eapply Forall_impl; [exact Hafter|]. apply schema_record_wf.
Qed.
End Repository.

Lemma non_decreasing_app l1 l2 :
  non_decreasing (l1 ++ l2) = true <->
  non_decreasing l1 = true /\ non_decreasing l2 = true /\
  match last l1, head l2 with
  | Some a, Some b => tuple_le a b = true
  | _, _ => True
  end.
Proof.
  induction l1 as [|a l1 IH].
  { simpl. destruct (head l2); tauto. }
  rewrite <- app_comm_cons, !non_decreasing_cons, !andb_true_iff, IH.
  destruct l1 as [|b l1].
  - simpl. destruct l2 as [|c l2]; simpl; tauto.
  - rewrite <- app_comm_cons. rewrite last_cons_cons. tauto.
Qed.

(** ** Reading back what was written *)

Lemma keys_of_project h l :
  (forall k, k ∈ KEY_COLUMNS -> k ∈ h) ->
  Forall (fun r => wf_record h r = true) l ->
  key_of <$> (project h <$> l) = key_of <$> l.
Proof.
  intros Hh Hl. rewrite <- list_fmap_compose.
  apply Forall_fmap_ext_1. eapply Forall_impl; [exact Hl|].
  intros r Hr. by apply key_of_project.
Qed.

Lemma filter_key_project h l k :
  (forall c, c ∈ KEY_COLUMNS -> c ∈ h) ->
  Forall (fun r => wf_record h r = true) l ->
  length (filter (fun r => key_of r = k) (project h <$> l))
  = length (filter (fun r => key_of r = k) l).
Proof.
  intros Hh. induction 1 as [|r l Hr _ IH]; [done|].
  rewrite fmap_cons, !filter_cons, (key_of_project h r Hh Hr).
  destruct (decide (key_of r = k)); simpl; by rewrite IH.
Qed.

Lemma excluded_project custom_filter p :
  wf_record PREDICTIONS_HEADER p = true ->
  excluded custom_filter (project PREDICTIONS_HEADER p) <-> excluded custom_filter p.
Proof.
  intros Hp. unfold excluded.
  by rewrite !(project_lookup_wf PREDICTIONS_HEADER p) by (done || set_solver).
Qed.

(** * The claims *)

(** ** Typed tuples *)

(** C6: converting a typed tuple of either schema to a record dictionary and
    back gives the tuple again, [from_dict(as_dict(x)) == x]. *)
Theorem from_dict_as_dict (V : Type) :
  (forall x : MappingTuple.t V,
     MappingTuple.from_dict (MappingTuple.as_dict x) = Ok x) /\
  (forall x : PredictionTuple.t V,
     PredictionTuple.from_dict (PredictionTuple.as_dict x) = Ok x).
Proof.
  split; intros [].
  - unfold MappingTuple.from_dict, MappingTuple.as_dict, MappingTuple.to_list.
    unfold MAPPINGS_HEADER, dict. cbn [zip zip_with foldl fst snd].
    cbn [comprehension]. unfold getitem.
    repeat (rewrite ?lookup_insert_eq; rewrite ?lookup_insert_ne by done; cbn).
    done.
  - unfold PredictionTuple.from_dict, PredictionTuple.as_dict, PredictionTuple.to_list.
    unfold PREDICTIONS_HEADER, dict. cbn [zip zip_with foldl fst snd].
    cbn [comprehension]. unfold getitem.
    repeat (rewrite ?lookup_insert_eq; rewrite ?lookup_insert_ne by done; cbn).
    done.
Qed.

(** ** The key of sorting and the key of deduplication *)

(** C4: the key that the sort on writing compares and the key that the
    deduplication set holds are the same function of a record; on a record
    with the seven columns both are the tuple of their values, and both
    raise on a record that lacks one. *)
Theorem mapping_sort_key_canonical (m : Mapping) :
  mapping_sort_key m = get_canonical_tuple m /\
  (has_columns KEY_COLUMNS m -> get_canonical_tuple m = Ok (key_of m)) /\
  (forall k, get_canonical_tuple m = Ok k -> length k = 7).
Proof.
  split; [done|]. split; [apply mapping_sort_key_ok|].
  intros k [_ ->]%mapping_sort_key_inv. done.
Qed.

Lemma mapping_sort_key_canonical_witness :
  get_canonical_tuple (sample_mapping "a")
  = Ok ["a"; "1"; "skos:exactMatch"; "mesh"; "D1"; "manually_reviewed"; "orcid:0000"].
Proof.
  rewrite (proj1 (proj2 (mapping_sort_key_canonical (sample_mapping "a"))));
    [reflexivity|].
  assert (Forall (fun r => wf_record KEY_COLUMNS r = true) [sample_mapping "a"])
    as Hwf by repeat constructor.
  exact (Forall_inv (wf_has_columns _ _ Hwf)).
Defined.

(** ** Loading rows of the wrong length *)

(** C3, as the code has it: a row with more or fewer fields than the header
    does not make the load fail.  Whenever the reader yields a header and
    rows, of whatever lengths, the whole table is returned; the record of a
    row is [dict(zip(header, row))], which pairs the names of the header
    with the fields by position, so the fields of a row past the length of
    the header are dropped, and a row that is too short gives a record
    without its last columns.  A file of lines of plain fields is read as
    these lines, however many fields each has. *)
Theorem _load_table_ragged (fname : string) (fs : filesystem)
    (header : list string) (rows : list (list string)) :
  (forall text,
     fs !! fname = Some text -> csv_reader text = Ok (header :: rows) ->
     _load_table fname fs = (fs, Ok ((fun row => dict (zip header row)) <$> rows))) /\
  (forallb plain_row (header :: rows) = true ->
   csv_reader (text_of_rows (header :: rows)) = Ok (header :: rows)) /\
  (forall row : list string,
     (NoDup header ->
      forall i k, header !! i = Some k -> dict (zip header row) !! k = row !! i) /\
     (forall k, k ∉ header -> dict (zip header row) !! k = None)).
Proof.
  split; [|split].
  - intros text Hfile Hrows. unfold _load_table.
    erewrite io_bind_ok; [|by unfold read_text; rewrite Hfile].
    erewrite io_bind_ok; [|by unfold lift; rewrite Hrows].
    done.
  - apply csv_reader_text_of_rows.
  - intros row. split.
    + intros Hnd i k Hi. unfold dict.
      rewrite (dict_zip_lookup header row ∅ i k) by done.
      by destruct (row !! i).
    + intros k Hk. unfold dict. by rewrite dict_lookup_notin.
Qed.

Lemma _load_table_ragged_witness :
  _load_table "t.tsv"
    {[ "t.tsv" := text_of_rows [["a"; "b"]; ["1"]; ["1"; "2"; "3"]] ]}
  = ({[ "t.tsv" := text_of_rows [["a"; "b"]; ["1"]; ["1"; "2"; "3"]] ]},
     Ok ((fun row => dict (zip ["a"; "b"] row)) <$> [["1"]; ["1"; "2"; "3"]])).
Proof.
  destruct (_load_table_ragged "t.tsv"
              {[ "t.tsv" := text_of_rows [["a"; "b"]; ["1"]; ["1"; "2"; "3"]] ]}
              ["a"; "b"] [["1"]; ["1"; "2"; "3"]])
    as (Hload & Hread & _).
  apply (Hload (text_of_rows [["a"; "b"]; ["1"]; ["1"; "2"; "3"]])).
  - reflexivity.
  - apply Hread. reflexivity.
Defined.

(** C3, as stated, fails: the header has two fields, the first row one and
    the second row three, and the load returns both records. *)
Lemma _load_table_ragged_no_error :
  _load_table "t.tsv"
    {[ "t.tsv" := text_of_rows [["a"; "b"]; ["1"]; ["1"; "2"; "3"]] ]}
  = ({[ "t.tsv" := text_of_rows [["a"; "b"]; ["1"]; ["1"; "2"; "3"]] ]},
     Ok [ {[ "a" := "1" ]}; {[ "a" := "1"; "b" := "2" ]} ]).
Proof. vm_compute. reflexivity. Qed.

(** ** The order of the rows after a write *)

(** C2, as the code has it: for values that are plain (no tab, no line
    break, no double quote in front, within the field limit of the reader),
    a write, a lint and an append with [sort=True] return and leave a table
    that loads as records in non-decreasing order of the key; for the
    append with [sort=True] the values are those that the table loads with
    once the batch is appended.  A plain append ([sort=False]) to a
    well-formed table leaves the rows that were there in place and puts the
    batch after them, sorted among itself; the table is then in order
    exactly when it was before and the key of the last old row is not above
    the smallest key of the batch. *)
Theorem write_path_order (RESOURCE_PATH : string) (t : table) (fs : filesystem)
    (m : list Mapping) :
  Forall (fun r => wf_record (header_of t) r = true) m ->
  (table_after RESOURCE_PATH t (write RESOURCE_PATH t m) fs
     (project (header_of t) <$> sort_records m) /\
   non_decreasing (key_of <$> (project (header_of t) <$> sort_records m)) = true) /\
  (forall rs,
     load RESOURCE_PATH t fs = (fs, Ok rs) ->
     Forall (fun r => wf_record (header_of t) r = true) rs ->
     table_after RESOURCE_PATH t (lint RESOURCE_PATH t) fs
       (project (header_of t) <$> sort_records rs) /\
     non_decreasing (key_of <$> (project (header_of t) <$> sort_records rs)) = true) /\
  (forall fs1 l,
     append RESOURCE_PATH t m false fs = (fs1, Ok tt) ->
     load RESOURCE_PATH t fs1 = (fs1, Ok l) ->
     Forall (fun r => wf_record (header_of t) r = true) l ->
     table_after RESOURCE_PATH t (append RESOURCE_PATH t m true) fs
       (project (header_of t) <$> sort_records l) /\
     non_decreasing (key_of <$> (project (header_of t) <$> sort_records l)) = true) /\
  (forall rs,
     holds_table fs (path_of RESOURCE_PATH t) (header_of t) rs ->
     (table_after RESOURCE_PATH t (append RESOURCE_PATH t m true) fs
        (sort_records (rs ++ (project (header_of t) <$> m))) /\
      non_decreasing
        (key_of <$> sort_records (rs ++ (project (header_of t) <$> m))) = true) /\
     (table_after RESOURCE_PATH t (append RESOURCE_PATH t m false) fs
        (rs ++ sort_records (project (header_of t) <$> m)) /\
      (non_decreasing
         (key_of <$> (rs ++ sort_records (project (header_of t) <$> m))) = true <->
       non_decreasing (key_of <$> rs) = true /\
       match last rs, head (sort_records (project (header_of t) <$> m)) with
       | Some r, Some b => tuple_le (key_of r) (key_of b) = true
       | _, _ => True
       end))).
Proof.
  intros Hm.
  assert (forall l, Forall (fun r => wf_record (header_of t) r = true) l ->
            non_decreasing (key_of <$> (project (header_of t) <$> sort_records l))
            = true) as Hsorted.
  { intros l Hl. rewrite keys_of_project.
    - apply sort_records_sorted.
    - apply header_keys.
    - by apply sort_records_Forall. }
  split; [|split; [|split]].
  - split; [|by apply Hsorted].
    apply table_after_insert; [by apply write_run, wf_has_columns|].
    by apply sort_records_Forall.
  - intros rs Hload Hrs. split; [|by apply Hsorted].
    apply table_after_insert; [by apply lint_run, wf_has_columns|].
    by apply sort_records_Forall.
  - intros fs1 l Happ Hload Hl. split; [|by apply Hsorted].
    exists (<[path_of RESOURCE_PATH t :=
               table_text (header_of t) (sort_records l)]> fs1).
    split.
    + rewrite append_sort_unfold.
      erewrite io_bind_ok; [|exact Happ].
      by apply lint_run, wf_has_columns.
    + by apply load_insert, sort_records_Forall.
  - intros rs Hfs. split.
    + split; [exact (append_after RESOURCE_PATH t fs rs m true Hfs Hm)|].
      apply sort_records_sorted.
    + split; [exact (append_after RESOURCE_PATH t fs rs m false Hfs Hm)|].
      set (batch := sort_records (project (header_of t) <$> m)).
      assert (head (key_of <$> batch) = key_of <$> head batch) as Hhead
        by by destruct batch.
      rewrite fmap_app, non_decreasing_app, fmap_last, Hhead.
      pose proof (sort_records_sorted (project (header_of t) <$> m)) as Hb.
      fold batch in Hb.
      destruct (last rs), (head batch); simpl; tauto.
Qed.

Lemma write_path_order_witness :
  table_after "resources" true_mappings
    (append "resources" true_mappings [sample_mapping "c"] true) sample_fs
    (sort_records ([sample_mapping "b"]
                   ++ (project (header_of true_mappings) <$> [sample_mapping "c"]))).
Proof.
  assert (Forall (fun r => wf_record (header_of true_mappings) r = true)
            [sample_mapping "c"]) as Hm by repeat constructor.
  apply (proj2 (proj2 (proj2
           (write_path_order "resources" true_mappings sample_fs [sample_mapping "c"]
              Hm))) [sample_mapping "b"]).
  split; [apply lookup_singleton_eq|reflexivity].
Defined.

(** C2, as stated, fails in two ways.  A plain append: the table has the
    row [b]; the append of the row [a] leaves [b] before [a], and the key
    of [a] is the smaller one.  A value in double quotes: the rows [a] and
    [z], the source prefix of [z] written in double quotes, are written in
    the order of their keys, the quoted one first; the table then loads as
    [z] before [a], for the reader takes the quotes away. *)
Lemma write_path_out_of_order :
  (exists fs',
     append_true_mappings "resources" [sample_mapping "a"] false sample_fs
       = (fs', Ok tt) /\
     load_mappings "resources" fs'
       = (fs', Ok [sample_mapping "b"; sample_mapping "a"]) /\
     non_decreasing (key_of <$> [sample_mapping "b"; sample_mapping "a"]) = false) /\
  (exists fs',
     write_true_mappings "resources"
       [sample_mapping "a"; sample_mapping (in_quotes "z")] sample_fs
       = (fs', Ok tt) /\
     load_mappings "resources" fs'
       = (fs', Ok [sample_mapping "z"; sample_mapping "a"]) /\
     non_decreasing (key_of <$> [sample_mapping "z"; sample_mapping "a"]) = false).
Proof.
  split.
  - exists ((append_true_mappings "resources" [sample_mapping "a"] false sample_fs).1).
    split; [|split]; vm_compute; exact eq_refl.
  - exists ((write_true_mappings "resources"
               [sample_mapping "a"; sample_mapping (in_quotes "z")] sample_fs).1).
    split; [|split]; vm_compute; exact eq_refl.
Qed.

(** ** Lint *)

(** C7, as the code has it: a second lint in a row leaves the files as the
    first one made them, byte for byte, when the records that the first
    lint loads have plain values: no tab, no line break, no double quote in
    front, within the field limit of the reader.  The first lint may start
    from any file that loads as such records with the columns of the
    header. *)
Theorem lint_idempotent (RESOURCE_PATH : string) (t : table) (fs : filesystem)
    (rs : list Mapping) :
  load RESOURCE_PATH t fs = (fs, Ok rs) ->
  Forall (fun r => wf_record (header_of t) r = true) rs ->
  exists fs1,
    lint RESOURCE_PATH t fs = (fs1, Ok tt) /\
    lint RESOURCE_PATH t fs1 = (fs1, Ok tt).
Proof.
  intros Hload Hrs. eexists. split; [by apply lint_run, wf_has_columns|].
  erewrite lint_run; cycle 1.
  - by apply load_insert, sort_records_Forall.
  - by apply wf_has_columns, project_wf, sort_records_Forall.
  - f_equal. rewrite insert_insert_eq. f_equal.
    rewrite sort_records_project by by apply sort_records_Forall.
    by rewrite sort_records_idemp, table_text_project.
Qed.

Lemma lint_idempotent_witness :
  exists fs1,
    lint "resources" true_mappings sample_fs = (fs1, Ok tt) /\
    lint "resources" true_mappings fs1 = (fs1, Ok tt).
Proof.
  apply (lint_idempotent "resources" true_mappings sample_fs [sample_mapping "b"]).
  - apply load_holds. split; [apply lookup_singleton_eq|reflexivity].
  - repeat constructor.
Defined.

(** C7, as stated, fails.  The file has one row, whose source name is [x]
    between three double quotes on each side, the way a CSV writer escapes
    the name [x] in double quotes.  The first lint reads the name as [x] in
    double quotes and writes it so; the second lint reads that as [x] and
    writes [x]: the file of the first lint is not the file of the second. *)
Lemma lint_twice_differs :
  let escaped := in_quotes (String QUOTE (in_quotes "x") +:+ String QUOTE "") in
  lint_true_mappings "resources" (named_fs escaped)
    = (named_fs (in_quotes "x"), Ok tt) /\
  lint_true_mappings "resources" (named_fs (in_quotes "x"))
    = (named_fs "x", Ok tt) /\
  named_fs (in_quotes "x") <> named_fs "x".
Proof.
  split; [|split]; [vm_compute; exact eq_refl..|].
  intros Heq.
  apply (f_equal (fun fs : filesystem => fs !! TRUE_MAPPINGS_PATH "resources")) in Heq.
  vm_compute in Heq. discriminate Heq.
Qed.

(** C9, as the code has it: when a table loads as records that have the
    columns of the header with plain values (no tab, no line break, no
    double quote in front, within the field limit of the reader), a lint
    returns and the table then loads as the same records, each with its
    columns of the header, in the order of the sort: every key has as many
    records as before, one or several.  When the records have no column but
    those of the header, the records after the lint are the records before
    it, reordered. *)
Theorem lint_keeps_records (RESOURCE_PATH : string) (t : table) (fs : filesystem)
    (rs : list Mapping) :
  load RESOURCE_PATH t fs = (fs, Ok rs) ->
  Forall (fun r => wf_record (header_of t) r = true) rs ->
  let after := project (header_of t) <$> sort_records rs in
  table_after RESOURCE_PATH t (lint RESOURCE_PATH t) fs after /\
  after ≡ₚ project (header_of t) <$> rs /\
  length after = length rs /\
  (forall k, length (filter (fun r => key_of r = k) after)
             = length (filter (fun r => key_of r = k) rs)) /\
  (Forall (fun r => schema_record (header_of t) r = true) rs ->
   after = sort_records rs /\ after ≡ₚ rs).
Proof.
  intros Hload Hrs after.
  assert (after ≡ₚ project (header_of t) <$> rs) as Hperm
    by (unfold after; by rewrite sort_records_perm).
  split; [|split; [done|split; [|split]]].
  - apply table_after_insert; [by apply lint_run, wf_has_columns|].
    by apply sort_records_Forall.
  - by rewrite Hperm, length_fmap.
  - intros k. rewrite Hperm. apply filter_key_project; [apply header_keys|done].
  - intros Hs.
    assert (after = sort_records rs) as ->
      by (by apply project_schema_records, sort_records_Forall).
    split; [done|apply sort_records_perm].
Qed.

Lemma lint_keeps_records_witness :
  table_after "resources" true_mappings (lint "resources" true_mappings) sample_fs
    (project (header_of true_mappings) <$> sort_records [sample_mapping "b"]).
Proof.
  apply (lint_keeps_records "resources" true_mappings sample_fs [sample_mapping "b"]).
  - apply load_holds. split; [apply lookup_singleton_eq|reflexivity].
  - repeat constructor.
Defined.

(** C9, as stated, fails in two ways.  A double quote in front: the table
    has the rows [a] and [b], and the source name of [a] is read as [abc]
    after one double quote; the lint writes the name so, and the next load
    takes all that follows the quote, the row [b] included, for one field:
    two records before the lint, one after.  A column that the header
    lacks: the file has a tenth column [note]; the record loads with it
    before the lint and without it after. *)
Lemma lint_loses_records :
  (let escaped := in_quotes (String QUOTE (String QUOTE "abc")) in
   let before : filesystem :=
     {[ TRUE_MAPPINGS_PATH "resources" :=
          table_text MAPPINGS_HEADER [named_mapping "a" escaped; sample_mapping "b"] ]} in
   load_mappings "resources" before
   = (before, Ok [named_mapping "a" (String QUOTE "abc"); sample_mapping "b"]) /\
   exists after r,
     lint_true_mappings "resources" before = (after, Ok tt) /\
     load_mappings "resources" after = (after, Ok [r]) /\
     r !! "source prefix" = Some "a" /\ r !! "relation" = None) /\
  (let before : filesystem :=
     {[ TRUE_MAPPINGS_PATH "resources" :=
          text_of_rows [ MAPPINGS_HEADER ++ ["note"];
                         row_of MAPPINGS_HEADER (sample_mapping "b") ++ ["x"] ] ]} in
   load_mappings "resources" before
   = (before, Ok [<["note" := "x"]> (sample_mapping "b")]) /\
   exists after,
     lint_true_mappings "resources" before = (after, Ok tt) /\
     load_mappings "resources" after = (after, Ok [sample_mapping "b"]) /\
     sample_mapping "b" <> <["note" := "x"]> (sample_mapping "b")).
Proof.
  split.
  - intros escaped before. split; [vm_compute; exact eq_refl|].
    exists ((lint_true_mappings "resources" before).1).
    exists (match (load_mappings "resources"
                     (lint_true_mappings "resources" before).1).2 with
            | Ok (r :: _) => r
            | _ => ∅
            end).
    split; [|split; [|split]]; vm_compute; exact eq_refl.
  - intros before. split; [vm_compute; exact eq_refl|].
    exists ((lint_true_mappings "resources" before).1).
    split; [vm_compute; exact eq_refl|]. split; [vm_compute; exact eq_refl|].
    intros Heq. apply (f_equal (fun r : Mapping => r !! "note")) in Heq.
    vm_compute in Heq. discriminate Heq.
Qed.

(** ** Filtering the predictions *)

Lemma filter_flags {A} (f : A -> bool) (l : list A) :
  fst <$> filter (fun x : A * bool => x.2 = true) ((fun p => (p, f p)) <$> l)
  = filter (fun p => f p = true) l.
Proof.
  induction l as [|x l IH]; [done|].
  rewrite fmap_cons, !filter_cons. simpl.
  destruct (decide (f x = true)); by rewrite ?fmap_cons, IH.
Qed.

Lemma filter_entry_get
    (custom_filter : gmap string (gmap string (gmap string string))) sp tp sid :
  default ∅ (default ∅ (custom_filter !! sp) !! tp) !! sid
  = filter_entry custom_filter sp tp sid.
Proof.
  unfold filter_entry. destruct (custom_filter !! sp) as [by_target|]; simpl; [|done].
  by destruct (by_target !! tp).
Qed.

Lemma _check_filter_ok p custom_filter :
  has_columns PREDICTIONS_HEADER p ->
  _check_filter p custom_filter
  = Ok (bool_decide (~ excluded custom_filter p)).
Proof.
  intros Hp.
  destruct (Hp "source prefix") as [sp Hsp]; [set_solver|].
  destruct (Hp "target prefix") as [tp Htp]; [set_solver|].
  destruct (Hp "source identifier") as [sid Hsid]; [set_solver|].
  destruct (Hp "target identifier") as [tid Htid]; [set_solver|].
  unfold _check_filter, getitem. rewrite Hsp, Htp, Hsid, Htid. cbn.
  rewrite filter_entry_get. f_equal.
  assert (excluded custom_filter p <->
          filter_entry custom_filter sp tp sid = Some tid) as Hex.
  { unfold excluded. by rewrite Hsp, Htp, Hsid, Htid. }
  destruct (decide (filter_entry custom_filter sp tp sid = Some tid)) as [He|He].
  - rewrite (bool_decide_eq_true_2 (Some tid = _)) by done.
    by rewrite bool_decide_eq_false_2 by tauto.
  - rewrite (bool_decide_eq_false_2 (Some tid = _)) by done.
    by rewrite bool_decide_eq_true_2 by tauto.
Qed.

(** C5, as the code has it: when the predictions table loads as records
    that have the columns of the header with plain values (no tab, no line
    break, no double quote in front, within the field limit of the reader),
    [filter_predictions] returns for every filter, and the table then loads
    as the records that the filter does not exclude, in sorted order, each
    with its columns of the header: no record left has its target
    identifier under its source prefix, target prefix and source identifier
    in the filter, and a record is kept exactly when the filter has no
    entry there or another one.  A prefix or an identifier that the filter
    lacks, at any of its three levels, excludes nothing. *)
Theorem filter_predictions_keeps (RESOURCE_PATH : string) (fs : filesystem)
    (P : list Mapping)
    (custom_filter : gmap string (gmap string (gmap string string))) :
  load_predictions RESOURCE_PATH fs = (fs, Ok P) ->
  Forall (fun r => wf_record PREDICTIONS_HEADER r = true) P ->
  let kept := sort_records (filter (fun p => ~ excluded custom_filter p) P) in
  let after := project PREDICTIONS_HEADER <$> kept in
  table_after RESOURCE_PATH predictions
    (filter_predictions RESOURCE_PATH custom_filter) fs after /\
  (forall p source_prefix target_prefix source_id target_id,
     p ∈ after ->
     p !! "source prefix" = Some source_prefix ->
     p !! "target prefix" = Some target_prefix ->
     p !! "source identifier" = Some source_id ->
     p !! "target identifier" = Some target_id ->
     filter_entry custom_filter source_prefix target_prefix source_id
     <> Some target_id) /\
  (forall p source_prefix target_prefix source_id target_id,
     p ∈ P ->
     p !! "source prefix" = Some source_prefix ->
     p !! "target prefix" = Some target_prefix ->
     p !! "source identifier" = Some source_id ->
     p !! "target identifier" = Some target_id ->
     (project PREDICTIONS_HEADER p ∈ after <->
      filter_entry custom_filter source_prefix target_prefix source_id = None \/
      exists entry,
        filter_entry custom_filter source_prefix target_prefix source_id
        = Some entry /\ entry <> target_id)) /\
  (forall p, p ∈ after -> exists q, q ∈ P /\ p = project PREDICTIONS_HEADER q) /\
  (Forall (fun r => schema_record PREDICTIONS_HEADER r = true) P -> after = kept).
Proof.
  intros Hload HP kept after.
  assert (forall p, p ∈ kept <-> p ∈ P /\ ~ excluded custom_filter p) as Hmem.
  { intros p. unfold kept. rewrite sort_records_elem_of, list_elem_of_filter. tauto. }
  assert (forall p, p ∈ P -> wf_record PREDICTIONS_HEADER p = true) as Hwf
    by (by apply Forall_forall).
  assert (forall p, p ∈ after ->
            exists q, q ∈ P /\ ~ excluded custom_filter q /\
                      p = project PREDICTIONS_HEADER q) as Hafter.
  { intros p (q & -> & [Hq Hex]%Hmem)%list_elem_of_fmap. by exists q. }
  assert (forall p, p ∈ P ->
            (project PREDICTIONS_HEADER p ∈ after <-> ~ excluded custom_filter p))
    as Hkept.
  { intros p Hp. split.
    - intros (q & Hq & Hex & Heq)%Hafter Hp'. apply Hex.
      apply (proj1 (excluded_project custom_filter q (Hwf q Hq))). rewrite <- Heq.
      by apply (proj2 (excluded_project custom_filter p (Hwf p Hp))).
    - intros Hex. apply list_elem_of_fmap. exists p. split; [done|]. by apply Hmem. }
  split; [|split; [|split; [|split]]].
  - assert (filter_predictions RESOURCE_PATH custom_filter fs
            = (<[PREDICTIONS_PATH RESOURCE_PATH :=
                   table_text PREDICTIONS_HEADER kept]> fs, Ok tt)) as Hrun.
    { unfold filter_predictions.
      erewrite io_bind_ok; [|exact Hload].
      erewrite io_bind_ok; cycle 1.
      { unfold lift.
        rewrite (comprehension_ok _
          (fun p => (p, bool_decide (~ excluded custom_filter p)))); [done|].
        intros p Hp. rewrite _check_filter_ok; [done|].
        intros k Hk. exact (wf_record_is_Some _ _ k (Hwf p Hp) Hk). }
      rewrite filter_flags.
      rewrite (list_filter_iff _ (fun p => ~ excluded custom_filter p)).
      + apply (write_run RESOURCE_PATH predictions).
        apply Forall_forall. intros p [_ Hp]%list_elem_of_filter.
        intros k Hk. exact (wf_record_is_Some _ _ k (Hwf p Hp) Hk).
      + intros p. apply bool_decide_eq_true. }
    apply (table_after_insert RESOURCE_PATH predictions); [exact Hrun|].
    apply Forall_forall. intros p [Hp _]%Hmem. by apply Hwf.
  - intros p sp tp sid tid (q & Hq & Hex & ->)%Hafter Hsp Htp Hsid Htid Hentry.
    apply Hex, (proj1 (excluded_project custom_filter q (Hwf q Hq))).
    unfold excluded. by rewrite Hsp, Htp, Hsid, Htid.
  - intros p sp tp sid tid Hp Hsp Htp Hsid Htid. rewrite (Hkept p Hp).
    unfold excluded. rewrite Hsp, Htp, Hsid, Htid. simpl.
    destruct (filter_entry custom_filter sp tp sid) as [entry|].
    + split.
      * intros Hne. right. exists entry. split; [done|congruence].
      * intros [?|(e & Heq & Hne)]; [done|]. congruence.
    + split; [by left|done].
  - intros p (q & Hq & _ & ->)%Hafter. by exists q.
  - intros Hs. apply project_schema_records.
    apply Forall_forall. intros p [Hp _]%Hmem.
    rewrite Forall_forall in Hs. by apply Hs.
Qed.

Lemma sample_tables_hold :
  holds_table sample_tables (TRUE_MAPPINGS_PATH "resources") MAPPINGS_HEADER
    [sample_mapping "b"] /\
  holds_table sample_tables (FALSE_MAPPINGS_PATH "resources") MAPPINGS_HEADER [] /\
  holds_table sample_tables (PREDICTIONS_PATH "resources") PREDICTIONS_HEADER
    [sample_prediction "ns1" "A" "ns2" "B" "0.9"].
Proof. repeat split; vm_compute; reflexivity. Defined.

Lemma filter_predictions_keeps_witness :
  let custom_filter : gmap string (gmap string (gmap string string)) :=
    {[ "ns1" := {[ "ns2" := {[ "A" := "B" ]} ]} ]} in
  let P := [sample_prediction "ns1" "A" "ns2" "B" "0.9"] in
  table_after "resources" predictions
    (filter_predictions "resources" custom_filter) sample_tables
    (project PREDICTIONS_HEADER <$>
       sort_records (filter (fun p => ~ excluded custom_filter p) P)).
Proof.
  intros custom_filter P.
  apply (filter_predictions_keeps "resources" sample_tables P custom_filter).
  - exact (load_holds "resources" predictions sample_tables P
             (proj2 (proj2 sample_tables_hold))).
  - repeat constructor.
Defined.

(** C5, as stated, fails.  The table has one prediction from [ns1:A] to
    [ns2], whose target identifier is [B] between three double quotes on
    each side, the way a CSV writer escapes [B] in double quotes; the filter
    names [B] for [ns1], [ns2], [A].  The load reads the identifier as [B]
    in double quotes, which the filter does not name, and the record is
    written so; the table then loads with the target identifier [B], which
    the filter excludes. *)
Lemma filter_predictions_leaves_excluded :
  let custom_filter : gmap string (gmap string (gmap string string)) :=
    {[ "ns1" := {[ "ns2" := {[ "A" := "B" ]} ]} ]} in
  let escaped := in_quotes (String QUOTE (in_quotes "B") +:+ String QUOTE "") in
  let before : filesystem :=
    {[ PREDICTIONS_PATH "resources" :=
         table_text PREDICTIONS_HEADER
           [sample_prediction "ns1" "A" "ns2" escaped "0.9"] ]} in
  let after : filesystem :=
    {[ PREDICTIONS_PATH "resources" :=
         table_text PREDICTIONS_HEADER
           [sample_prediction "ns1" "A" "ns2" (in_quotes "B") "0.9"] ]} in
  load_predictions "resources" before
  = (before, Ok [sample_prediction "ns1" "A" "ns2" (in_quotes "B") "0.9"]) /\
  filter_predictions "resources" custom_filter before = (after, Ok tt) /\
  load_predictions "resources" after
  = (after, Ok [sample_prediction "ns1" "A" "ns2" "B" "0.9"]) /\
  excluded custom_filter (sample_prediction "ns1" "A" "ns2" "B" "0.9").
Proof.
  split; [|split; [|split]]; vm_compute; exact eq_refl.
Qed.

(** The scenario of the specification: the filter names [B] for [ns1],
    [ns2], [A]; the prediction with target [B] goes, the one with target
    [C] stays. *)
Example filter_predictions_scenario :
  let custom_filter : gmap string (gmap string (gmap string string)) :=
    {[ "ns1" := {[ "ns2" := {[ "A" := "B" ]} ]} ]} in
  filter (fun p => ~ excluded custom_filter p)
    [ sample_prediction "ns1" "A" "ns2" "B" "0.9";
      sample_prediction "ns1" "A" "ns2" "C" "0.8" ]
  = [ sample_prediction "ns1" "A" "ns2" "C" "0.8" ].
Proof. vm_compute. exact eq_refl. Qed.

(** ** Deduplication of appended predictions *)

Lemma submseteq_filter {A} (P : A -> Prop) `{!forall x, Decision (P x)} (l1 l2 : list A) :
  l1 ⊆+ l2 -> filter P l1 ⊆+ filter P l2.
Proof.
  induction 1 as [|x l1 l2 _ IH|x y l|x l1 l2 _ IH|l1 l2 l3 _ IH1 _ IH2].
  - done.
  - rewrite !filter_cons. destruct (decide (P x)); [by constructor|done].
  - rewrite !filter_cons. destruct (decide (P x)), (decide (P y)); try done.
    apply submseteq_swap.
  - rewrite filter_cons. destruct (decide (P x)); [by constructor|done].
  - by etrans.
Qed.

Lemma survivors_columns h existing m :
  Forall (has_columns h) m -> Forall (has_columns h) (survivors existing m).
Proof.
  rewrite !Forall_forall. intros Hm p [_ Hp]%list_elem_of_filter. by apply Hm.
Qed.

Lemma survivors_wf h existing m :
  Forall (fun r => wf_record h r = true) m ->
  Forall (fun r => wf_record h r = true) (survivors existing m).
Proof.
  rewrite !Forall_forall. intros Hm p [_ Hp]%list_elem_of_filter. by apply Hm.
Qed.

(** With [deduplicate=True] the call goes on with the survivors, as a call
    without deduplication would. *)
Lemma append_predictions_run (RESOURCE_PATH : string) (fs : filesystem)
    (T F P m : list Mapping) (sort : bool) :
  load_mappings RESOURCE_PATH fs = (fs, Ok T) ->
  load_false_mappings RESOURCE_PATH fs = (fs, Ok F) ->
  load_predictions RESOURCE_PATH fs = (fs, Ok P) ->
  Forall (has_columns KEY_COLUMNS) (T ++ F ++ P) ->
  Forall (has_columns KEY_COLUMNS) m ->
  append_predictions RESOURCE_PATH m true sort fs
  = append_predictions RESOURCE_PATH (survivors (existing_keys T F P) m) false sort fs.
Proof.
  intros HT HF HP Hkeys Hm.
  unfold append_predictions.
  erewrite (io_bind_ok _ _ fs fs (survivors (existing_keys T F P) m)); [done|].
  erewrite io_bind_ok; [|exact HT].
  erewrite io_bind_ok; [|exact HF].
  erewrite io_bind_ok; [|exact HP].
  erewrite io_bind_ok; cycle 1.
  { unfold lift. rewrite (comprehension_ok _ key_of); [done|].
    intros r Hr. rewrite Forall_forall in Hkeys. by apply mapping_sort_key_ok, Hkeys. }
  erewrite io_bind_ok; cycle 1.
  { unfold lift.
    rewrite (comprehension_ok _
      (fun p => (p, bool_decide (key_of p ∉
         (list_to_set (key_of <$> T ++ F ++ P) : gset (list string)))))); [done|].
    intros p Hp.
    assert (get_canonical_tuple p = Ok (key_of p)) as ->; [|done].
    apply mapping_sort_key_ok. rewrite Forall_forall in Hm. by apply Hm. }
  unfold mret, io_ret. do 2 f_equal.
  rewrite filter_flags. unfold survivors, existing_keys.
  apply list_filter_iff. intros p.
  by rewrite bool_decide_eq_true, elem_of_list_to_set.
Qed.

(** The call with [deduplicate=True] and [sort=False]. *)
Lemma append_predictions_plain_run (RESOURCE_PATH : string) (fs : filesystem)
    (T F P m : list Mapping) :
  load_mappings RESOURCE_PATH fs = (fs, Ok T) ->
  load_false_mappings RESOURCE_PATH fs = (fs, Ok F) ->
  load_predictions RESOURCE_PATH fs = (fs, Ok P) ->
  Forall (has_columns KEY_COLUMNS) (T ++ F ++ P) ->
  Forall (has_columns PREDICTIONS_HEADER) m ->
  append_predictions RESOURCE_PATH m true false fs
  = (<[PREDICTIONS_PATH RESOURCE_PATH :=
         default "" (fs !! PREDICTIONS_PATH RESOURCE_PATH)
         +:+ rows_text PREDICTIONS_HEADER
               (sort_records (survivors (existing_keys T F P) m))]> fs, Ok tt).
Proof.
  intros HT HF HP Hkeys Hm.
  rewrite (append_predictions_run RESOURCE_PATH fs T F P m false)
    by (try done; by apply (columns_keyed predictions)).
  apply (append_plain_run RESOURCE_PATH predictions).
  by apply survivors_columns.
Qed.

(** The predictions table after the call, when the predictions file and the
    incoming records are well formed. *)
Lemma append_predictions_after (RESOURCE_PATH : string) (fs : filesystem)
    (T F P m : list Mapping) (sort : bool) :
  load_mappings RESOURCE_PATH fs = (fs, Ok T) ->
  load_false_mappings RESOURCE_PATH fs = (fs, Ok F) ->
  Forall (has_columns KEY_COLUMNS) (T ++ F) ->
  holds_table fs (PREDICTIONS_PATH RESOURCE_PATH) PREDICTIONS_HEADER P ->
  Forall (fun r => wf_record PREDICTIONS_HEADER r = true) m ->
  table_after RESOURCE_PATH predictions
    (append_predictions RESOURCE_PATH m true sort) fs
    (if sort
     then sort_records
            (P ++ (project PREDICTIONS_HEADER <$> survivors (existing_keys T F P) m))
     else P ++ sort_records
            (project PREDICTIONS_HEADER <$> survivors (existing_keys T F P) m)).
Proof.
  intros HT HF Hkeys HP Hm.
  destruct (append_after RESOURCE_PATH predictions fs P
              (survivors (existing_keys T F P) m) sort HP)
    as (fs' & Hrun & Hload); [by apply survivors_wf|].
  exists fs'. split; [|exact Hload].
  rewrite (append_predictions_run RESOURCE_PATH fs T F P m sort HT HF); [exact Hrun|..].
  - by apply (load_holds RESOURCE_PATH predictions).
  - rewrite app_assoc. apply Forall_app. split; [done|].
    apply holds_table_inv in HP as (_ & _ & Hwf). by apply (wf_keyed predictions).
  - by apply (wf_keyed predictions).
Qed.


Lemma sample_tables_load :
  load_mappings "resources" sample_tables = (sample_tables, Ok [sample_mapping "b"]) /\
  load_false_mappings "resources" sample_tables = (sample_tables, Ok []) /\
  load_predictions "resources" sample_tables
  = (sample_tables, Ok [sample_prediction "ns1" "A" "ns2" "B" "0.9"]) /\
  Forall (has_columns KEY_COLUMNS)
    ([sample_mapping "b"] ++ [] ++ [sample_prediction "ns1" "A" "ns2" "B" "0.9"]).
Proof.
  split; [|split; [|split]].
  - exact (load_holds "resources" true_mappings sample_tables _
             (proj1 sample_tables_hold)).
  - exact (load_holds "resources" false_mappings sample_tables _
             (proj1 (proj2 sample_tables_hold))).
  - exact (load_holds "resources" predictions sample_tables _
             (proj2 (proj2 sample_tables_hold))).
  - apply (wf_has_columns KEY_COLUMNS). repeat constructor.
Defined.


(** The scenario: the prediction from [ns1:A] to [ns2:B] is in the
    predictions table, with another confidence; the one to [ns2:C] is only
    in the unsure table.  The first is dropped, the second is appended. *)
Example append_predictions_scenario :
  survivors
    (existing_keys [sample_mapping "b"] []
       [sample_prediction "ns1" "A" "ns2" "B" "0.9"])
    [ sample_prediction "ns1" "A" "ns2" "B" "0.5";
      sample_prediction "ns1" "A" "ns2" "C" "0.7" ]
  = [ sample_prediction "ns1" "A" "ns2" "C" "0.7" ].
Proof. vm_compute. exact eq_refl. Qed.

(** C10: deduplication compares the incoming records with the three tables,
    not with one another.  Two incoming records with the same key, a key
    that none of the three tables has, are both appended. *)
Theorem append_predictions_keeps_twins (RESOURCE_PATH : string) (fs : filesystem)
    (T F P m : list Mapping) (p1 p2 : Mapping) :
  load_mappings RESOURCE_PATH fs = (fs, Ok T) ->
  load_false_mappings RESOURCE_PATH fs = (fs, Ok F) ->
  load_predictions RESOURCE_PATH fs = (fs, Ok P) ->
  Forall (has_columns KEY_COLUMNS) (T ++ F ++ P) ->
  Forall (has_columns PREDICTIONS_HEADER) m ->
  [p1; p2] ⊆+ m ->
  key_of p1 = key_of p2 ->
  key_of p1 ∉ existing_keys T F P ->
  let appended := sort_records (survivors (existing_keys T F P) m) in
  append_predictions RESOURCE_PATH m true false fs
  = (<[PREDICTIONS_PATH RESOURCE_PATH :=
         default "" (fs !! PREDICTIONS_PATH RESOURCE_PATH)
         +:+ rows_text PREDICTIONS_HEADER appended]> fs, Ok tt) /\
  [p1; p2] ⊆+ appended /\
  (holds_table fs (PREDICTIONS_PATH RESOURCE_PATH) PREDICTIONS_HEADER P ->
   Forall (fun r => wf_record PREDICTIONS_HEADER r = true) m ->
   forall sort, exists after,
     table_after RESOURCE_PATH predictions
       (append_predictions RESOURCE_PATH m true sort) fs after /\
     (P ++ [project PREDICTIONS_HEADER p1; project PREDICTIONS_HEADER p2]) ⊆+ after).
Proof.
  intros HT HF HP Hkeys Hm Hsub Hsame Hfresh appended.
  assert ([p1; p2] ⊆+ survivors (existing_keys T F P) m) as Hsurv.
  { assert (survivors (existing_keys T F P) [p1; p2] = [p1; p2]) as <-.
    { unfold survivors. rewrite !filter_cons, filter_nil.
      rewrite decide_True by done. rewrite decide_True by by rewrite <- Hsame.
      done. }
    by apply submseteq_filter. }
  split; [by apply append_predictions_plain_run|]. split.
  { unfold appended. by rewrite sort_records_perm. }
  intros Hholds Hwf sort.
  assert (Forall (has_columns KEY_COLUMNS) (T ++ F)) as HTF.
  { rewrite app_assoc in Hkeys. by apply Forall_app in Hkeys as [? _]. }
  eexists. split; [by apply append_predictions_after|].
  assert ([project PREDICTIONS_HEADER p1; project PREDICTIONS_HEADER p2]
          ⊆+ project PREDICTIONS_HEADER <$> survivors (existing_keys T F P) m)
    as Happ.
  { change [project PREDICTIONS_HEADER p1; project PREDICTIONS_HEADER p2]
      with (project PREDICTIONS_HEADER <$> [p1; p2]).
    by apply fmap_submseteq. }
  destruct sort.
  - rewrite sort_records_perm. by apply submseteq_skips_l.
  - apply submseteq_skips_l. by rewrite sort_records_perm.
Qed.

Lemma append_predictions_keeps_twins_witness :
  let p1 := sample_prediction "ns1" "A" "ns2" "C" "0.7" in
  let p2 := sample_prediction "ns1" "A" "ns2" "C" "0.6" in
  let existing := existing_keys [sample_mapping "b"] []
                    [sample_prediction "ns1" "A" "ns2" "B" "0.9"] in
  [p1; p2] ⊆+ sort_records (survivors existing [p1; p2]).
Proof.
  intros p1 p2 existing.
  destruct sample_tables_load as (HT & HF & HP & Hkeys).
  apply (append_predictions_keeps_twins "resources" sample_tables
           [sample_mapping "b"] []
           [sample_prediction "ns1" "A" "ns2" "B" "0.9"] [p1; p2] p1 p2
           HT HF HP Hkeys).
  - apply (wf_has_columns PREDICTIONS_HEADER). repeat constructor.
  - reflexivity.
  - reflexivity.
  - apply (bool_decide_unpack _). vm_compute. exact I.
Defined.

(** ** Append and sort *)

(** C8, as the code has it: an append with [sort=True] ends in the same
    files as one overwrite of the table with its old records followed by
    the batch, when the file is the header line followed by one terminated
    line per record, and the values of the old records and of the batch are
    plain: no tab, no line break, no double quote in front, within the
    field limit of the reader.  This holds for each of the four tables; for
    the predictions with [deduplicate=True] the batch is what deduplication
    lets through. *)
Theorem append_sort_is_rewrite (RESOURCE_PATH : string) (fs : filesystem) :
  (forall t rs m,
     holds_table fs (path_of RESOURCE_PATH t) (header_of t) rs ->
     Forall (fun r => wf_record (header_of t) r = true) m ->
     exists fs',
       load RESOURCE_PATH t fs = (fs, Ok rs) /\
       append RESOURCE_PATH t m true fs = (fs', Ok tt) /\
       write RESOURCE_PATH t (rs ++ m) fs = (fs', Ok tt)) /\
  (forall T F P m,
     load_mappings RESOURCE_PATH fs = (fs, Ok T) ->
     load_false_mappings RESOURCE_PATH fs = (fs, Ok F) ->
     Forall (has_columns KEY_COLUMNS) (T ++ F) ->
     holds_table fs (PREDICTIONS_PATH RESOURCE_PATH) PREDICTIONS_HEADER P ->
     Forall (fun r => wf_record PREDICTIONS_HEADER r = true) m ->
     exists fs',
       load_predictions RESOURCE_PATH fs = (fs, Ok P) /\
       append_predictions RESOURCE_PATH m true true fs = (fs', Ok tt) /\
       write_predictions RESOURCE_PATH (P ++ survivors (existing_keys T F P) m) fs
       = (fs', Ok tt)).
Proof.
  split.
  - intros t rs m Hfs Hm.
    destruct (append_sort_write RESOURCE_PATH t fs rs m Hfs Hm) as (fs' & Ha & Hw).
    exists fs'. split; [by apply load_holds|]. by split.
  - intros T F P m HT HF Hkeys HP Hm.
    destruct (append_sort_write RESOURCE_PATH predictions fs P
                (survivors (existing_keys T F P) m) HP) as (fs' & Ha & Hw);
      [by apply survivors_wf|].
    pose proof (load_holds RESOURCE_PATH predictions fs P HP) as Hload.
    exists fs'. split; [exact Hload|]. split; [|exact Hw].
    rewrite (append_predictions_run RESOURCE_PATH fs T F P m true HT HF Hload);
      [exact Ha|..].
    + rewrite app_assoc. apply Forall_app. split; [done|].
      apply holds_table_inv in HP as (_ & _ & Hwf). by apply (wf_keyed predictions).
    + by apply (wf_keyed predictions).
Qed.

Lemma append_sort_is_rewrite_witness :
  exists fs',
    load "resources" true_mappings sample_fs = (sample_fs, Ok [sample_mapping "b"]) /\
    append "resources" true_mappings [sample_mapping "a"] true sample_fs = (fs', Ok tt) /\
    write "resources" true_mappings ([sample_mapping "b"] ++ [sample_mapping "a"])
      sample_fs = (fs', Ok tt).
Proof.
  apply (proj1 (append_sort_is_rewrite "resources" sample_fs) true_mappings
           [sample_mapping "b"] [sample_mapping "a"]).
  - split; [apply lookup_singleton_eq|reflexivity].
  - repeat constructor.
Defined.

(** C8, as stated, fails.  The table has the row [b]; the batch is the row
    [a] whose source name is [x] in double quotes.  The append writes the
    name with its quotes, the reload for the sort reads it without them,
    and the sorted rewrite has the name [x]; the overwrite with the loaded
    row and the batch has the name in quotes. *)
Lemma append_sort_differs_from_rewrite :
  let quoted := named_mapping "a" (in_quotes "x") in
  let after_append :=
    <[TRUE_MAPPINGS_PATH "resources" :=
        table_text MAPPINGS_HEADER [named_mapping "a" "x"; sample_mapping "b"]]>
      sample_fs in
  let after_rewrite :=
    <[TRUE_MAPPINGS_PATH "resources" :=
        table_text MAPPINGS_HEADER [quoted; sample_mapping "b"]]> sample_fs in
  append_true_mappings "resources" [quoted] true sample_fs = (after_append, Ok tt) /\
  (l ← load_mappings "resources"; write_true_mappings "resources" (l ++ [quoted]))
    sample_fs = (after_rewrite, Ok tt) /\
  after_append <> after_rewrite.
Proof.
  split; [|split]; [vm_compute; exact eq_refl..|].
  intros Heq.
  apply (f_equal (fun fs : filesystem => fs !! TRUE_MAPPINGS_PATH "resources")) in Heq.
  vm_compute in Heq. discriminate Heq.
Qed.

(** The same happens without any quote when the last line of the file has
    no line feed: the first appended line continues it, the reload reads
    one long row, of which the fields past the header are dropped. *)
Example append_sort_unterminated :
  let merged := <["source" := "orcid:0000a"]> (sample_mapping "b") in
  append_true_mappings "resources" [sample_mapping "a"] true unterminated_fs
  = (<[TRUE_MAPPINGS_PATH "resources" := table_text MAPPINGS_HEADER [merged]]>
       unterminated_fs, Ok tt) /\
  (l ← load_mappings "resources";
   write_true_mappings "resources" (l ++ [sample_mapping "a"])) unterminated_fs
  = (<[TRUE_MAPPINGS_PATH "resources" :=
         table_text MAPPINGS_HEADER [sample_mapping "a"; sample_mapping "b"]]>
       unterminated_fs, Ok tt).
Proof. split; vm_compute; exact eq_refl. Qed.

(** * Further properties *)

(** ** The outcomes of a load *)























(** ** The files of the tables *)

Lemma append_cancel pre : forall a b, pre +:+ a = pre +:+ b -> a = b.
Proof. induction pre as [|c pre IH]; intros a b; [done|]. intros [= H]. auto. Qed.

Lemma os_path_join_relative a :
  exists pre, forall b, String.prefix "/" b = false -> os_path_join a b = pre +:+ b.
Proof.
  unfold os_path_join.
  destruct (String.eqb a "") eqn:Ha.
  { exists "". intros b ->. done. }
  destruct (String.eqb (String.substring (String.length a - 1) 1 a) "/").
  - exists a. by intros b ->.
  - exists (a +:+ "/"). intros b ->. by rewrite append_assoc.
Qed.

Lemma get_resource_file_path_inj RESOURCE_PATH a b :
  String.prefix "/" a = false -> String.prefix "/" b = false ->
  get_resource_file_path RESOURCE_PATH a = get_resource_file_path RESOURCE_PATH b ->
  a = b.
Proof.
  unfold get_resource_file_path. intros Ha Hb.
  destruct (os_path_join_relative RESOURCE_PATH) as [pre Hpre].
  rewrite !Hpre by done. apply append_cancel.
Qed.

Lemma path_of_inj RESOURCE_PATH t1 t2 :
  path_of RESOURCE_PATH t1 = path_of RESOURCE_PATH t2 -> t1 = t2.
Proof.
  destruct t1, t2; try done; intros H;
    apply get_resource_file_path_inj in H; done.
Qed.

Lemma path_of_not_curators RESOURCE_PATH t :
  path_of RESOURCE_PATH t <> get_resource_file_path RESOURCE_PATH "curators.tsv".
Proof. intros H. destruct t; apply get_resource_file_path_inj in H; done. Qed.

(** ** What an operation leaves alone *)

Lemma changes_only_ret {A} path (a : A) : changes_only path (mret a).
Proof. by intros fs fs' r [= <- _]. Qed.

Lemma changes_only_lift {A} path (x : result A) : changes_only path (lift x).
Proof. by intros fs fs' r [= <- _]. Qed.

Lemma changes_only_bind {A B} path (m : io A) (f : A -> io B) :
  changes_only path m -> (forall a, changes_only path (f a)) ->
  changes_only path (m ≫= f).
Proof.
  intros Hm Hf fs fs' r. unfold mbind, io_bind.
  destruct (m fs) as [fs1 [a|e]] eqn:H1.
  - intros H2 p Hp. rewrite (Hf a _ _ _ H2 p Hp). by eapply Hm.
  - intros [= <- _] p Hp. by eapply Hm.
Qed.

Lemma changes_only_load path fname : changes_only path (_load_table fname).
Proof. intros fs fs' r Hrun p _. by rewrite (_load_table_fs _ _ _ _ Hrun). Qed.

Lemma changes_only_open path mode : changes_only path (open_ path mode).
Proof.
  intros fs fs' r. unfold open_. destruct mode.
  - intros [= <- _] p Hp. by rewrite lookup_insert_ne.
  - destruct (fs !! path); intros [= <- _] p Hp; [done|by rewrite lookup_insert_ne].
Qed.

Lemma changes_only_print path items : changes_only path (print path items).
Proof. intros fs fs' r [= <- _] p Hp. by rewrite lookup_alter_ne. Qed.

Lemma changes_only_for_each {A} path (body : A -> io unit) l :
  (forall x, changes_only path (body x)) -> changes_only path (for_each l body).
Proof.
  intros Hbody. induction l as [|x l IH]; [apply changes_only_ret|].
  simpl. apply changes_only_bind; [done|]. by intros _.
Qed.

Lemma changes_only_write_helper h lod path mode :
  changes_only path (_write_helper h lod path mode).
Proof.
  unfold _write_helper.
  apply changes_only_bind; [apply changes_only_lift|]. intros s.
  apply changes_only_bind; [apply changes_only_open|]. intros _.
  apply changes_only_bind.
  { destruct mode; [apply changes_only_print|apply changes_only_ret]. }
  intros _. apply changes_only_for_each. intros line.
  apply changes_only_bind; [apply changes_only_lift|]. intros items.
  apply changes_only_print.
Qed.

Lemma changes_only_write RESOURCE_PATH t m :
  changes_only (path_of RESOURCE_PATH t) (write RESOURCE_PATH t m).
Proof. rewrite write_unfold. apply changes_only_write_helper. Qed.

Lemma changes_only_lint RESOURCE_PATH t :
  changes_only (path_of RESOURCE_PATH t) (lint RESOURCE_PATH t).
Proof.
  rewrite lint_unfold, load_unfold.
  apply changes_only_bind; [apply changes_only_load|]. intros l.
  apply changes_only_bind; [apply changes_only_lift|]. intros s.
  apply changes_only_write.
Qed.

Lemma changes_only_append RESOURCE_PATH t m sort :
  changes_only (path_of RESOURCE_PATH t) (append RESOURCE_PATH t m sort).
Proof.
  rewrite append_unfold.
  apply changes_only_bind; [apply changes_only_write_helper|]. intros _.
  destruct sort; [|apply changes_only_ret].
  rewrite <- lint_unfold. apply changes_only_lint.
Qed.

Lemma changes_only_append_predictions RESOURCE_PATH m deduplicate sort :
  changes_only (PREDICTIONS_PATH RESOURCE_PATH)
    (append_predictions RESOURCE_PATH m deduplicate sort).
Proof.
  unfold append_predictions.
  apply changes_only_bind.
  { destruct deduplicate; [|apply changes_only_ret].
    apply changes_only_bind; [apply changes_only_load|]. intros T.
    apply changes_only_bind; [apply changes_only_load|]. intros F.
    apply changes_only_bind; [apply changes_only_load|]. intros P.
    apply changes_only_bind; [apply changes_only_lift|]. intros keys.
    apply changes_only_bind; [apply changes_only_lift|]. intros kept.
    apply changes_only_ret. }
  intros m'.
  apply changes_only_bind; [apply changes_only_write_helper|]. intros _.
  destruct sort; [|apply changes_only_ret].
  apply (changes_only_lint RESOURCE_PATH predictions).
Qed.

Lemma changes_only_filter_predictions RESOURCE_PATH custom_filter :
  changes_only (PREDICTIONS_PATH RESOURCE_PATH)
    (filter_predictions RESOURCE_PATH custom_filter).
Proof.
  unfold filter_predictions.
  apply changes_only_bind; [apply changes_only_load|]. intros P.
  apply changes_only_bind; [apply changes_only_lift|]. intros checked.
  apply (changes_only_write RESOURCE_PATH predictions).
Qed.

(** What a load returns depends on the file it reads only. *)
Lemma _load_table_ext fname (fs fs' : filesystem) :
  fs' !! fname = fs !! fname -> (_load_table fname fs').2 = (_load_table fname fs).2.
Proof.
  intros H. unfold _load_table, mbind, io_bind, read_text, lift, mret, io_ret.
  rewrite H. destruct (fs !! fname) as [text|]; [|done].
  by destruct (csv_reader text) as [[|header rows]|e].
Qed.

(** X2: the tables are kept apart.  Whatever the resource directory is, the
    four tables and the curators have five different files; a write, an
    append or a lint of a table, an append of predictions and a filter of
    the predictions change no file but the one of their table, whether they
    return or raise; so every other table, and the curators, load after the
    call as they did before. *)
Theorem tables_kept_apart (RESOURCE_PATH : string) (t : table) (m : list Mapping)
    (sort : bool) (custom_filter : gmap string (gmap string (gmap string string)))
    (op : io unit) :
  op = write RESOURCE_PATH t m \/ op = append RESOURCE_PATH t m sort \/
  op = lint RESOURCE_PATH t \/
  (t = predictions /\
   (op = append_predictions RESOURCE_PATH m true sort \/
    op = filter_predictions RESOURCE_PATH custom_filter)) ->
  forall fs fs' r, op fs = (fs', r) ->
    (forall p, p <> path_of RESOURCE_PATH t -> fs' !! p = fs !! p) /\
    (forall t', t' <> t ->
       path_of RESOURCE_PATH t' <> path_of RESOURCE_PATH t /\
       (load RESOURCE_PATH t' fs').2 = (load RESOURCE_PATH t' fs).2) /\
    path_of RESOURCE_PATH t <> get_resource_file_path RESOURCE_PATH "curators.tsv" /\
    (load_curators RESOURCE_PATH fs').2 = (load_curators RESOURCE_PATH fs).2.
Proof.
  intros Hop fs fs' r Hrun.
  assert (changes_only (path_of RESOURCE_PATH t) op) as Hframe.
  { destruct Hop as [->|[->|[->|[-> [->| ->]]]]].
    - apply changes_only_write.
    - apply changes_only_append.
    - apply changes_only_lint.
    - apply changes_only_append_predictions.
    - apply changes_only_filter_predictions. }
  split; [by eapply Hframe|]. split.
  - intros t' Ht'.
    assert (path_of RESOURCE_PATH t' <> path_of RESOURCE_PATH t) as Hp
      by (by intros ?%path_of_inj).
    split; [done|]. rewrite !load_unfold. apply _load_table_ext. by eapply Hframe.
  - split; [apply path_of_not_curators|].
    apply _load_table_ext. eapply Hframe; [done|].
    intros H. by eapply path_of_not_curators.
Qed.

Lemma tables_kept_apart_witness :
  (load "resources" predictions
     (append "resources" true_mappings [sample_mapping "a"] true sample_tables).1).2
  = (load "resources" predictions sample_tables).2.
Proof.
  apply (tables_kept_apart "resources" true_mappings [sample_mapping "a"] true ∅
           (append "resources" true_mappings [sample_mapping "a"] true)
           (or_intror (or_introl eq_refl)) sample_tables _ _
           (surjective_pairing _)).
  discriminate.
Defined.

(** ** A record that lacks a column *)

Lemma comprehension_raise {A B} (f : A -> result B) l1 x l2 e :
  (forall y, y ∈ l1 -> exists b, f y = Ok b) -> f x = Raise e ->
  comprehension f (l1 ++ x :: l2) = Raise e.
Proof.
  intros Hl1 Hx. induction l1 as [|y l1 IH].
  { simpl. by rewrite Hx. }
  simpl. destruct (Hl1 y) as [b ->]; [by left|]. simpl.
  rewrite IH; [done|]. intros z Hz. apply Hl1. by right.
Qed.

Lemma getitem_raise {V} (d : gmap string V) h1 k h2 :
  (forall c, c ∈ h1 -> is_Some (d !! c)) -> d !! k = None ->
  comprehension (getitem d) (h1 ++ k :: h2) = Raise (KeyError k).
Proof.
  intros Hh1 Hk. apply comprehension_raise.
  - intros c Hc. destruct (Hh1 c Hc) as [v Hv]. exists v. unfold getitem. by rewrite Hv.
  - unfold getitem. by rewrite Hk.
Qed.

Lemma mapping_sort_key_comprehension r :
  mapping_sort_key r = comprehension (getitem r) KEY_COLUMNS.
Proof.
  unfold mapping_sort_key, KEY_COLUMNS. cbn [comprehension]. unfold getitem.
  destruct (r !! "source prefix"); [|done].
  destruct (r !! "source identifier"); [|done].
  destruct (r !! "relation"); [|done].
  destruct (r !! "target prefix"); [|done].
  destruct (r !! "target identifier"); [|done].
  destruct (r !! "type"); [|done].
  by destruct (r !! "source").
Qed.

Lemma sorted_raise l1 r l2 c1 k c2 :
  Forall (has_columns KEY_COLUMNS) l1 ->
  KEY_COLUMNS = c1 ++ k :: c2 -> has_columns c1 r -> r !! k = None ->
  sorted (l1 ++ r :: l2) mapping_sort_key = Raise (KeyError k).
Proof.
  intros Hl1 Hkeys Hc1 Hk. unfold sorted.
  rewrite (comprehension_raise _ l1 r l2 (KeyError k)); [done| |].
  - intros y Hy. rewrite Forall_forall in Hl1.
    rewrite (mapping_sort_key_ok y) by by apply Hl1. by eexists.
  - rewrite mapping_sort_key_comprehension, Hkeys.
    by rewrite getitem_raise.
Qed.

(** X3: a record without one of the seven columns of the key makes every
    write fail before the file is opened.  The key error names the first
    column of the key, in the order of [mapping_sort_key], that the first
    such record lacks; no file is created, emptied or changed, also by an
    overwrite and by a lint. *)
Theorem _write_helper_missing_key (header : list string) (l1 l2 : list Mapping)
    (r : Mapping) (c1 c2 : list string) (k path : string) (mode : open_mode)
    (fs : filesystem) :
  Forall (has_columns KEY_COLUMNS) l1 ->
  KEY_COLUMNS = c1 ++ k :: c2 -> has_columns c1 r -> r !! k = None ->
  _write_helper header (l1 ++ r :: l2) path mode fs = (fs, Raise (KeyError k)) /\
  (forall RESOURCE_PATH t,
     write RESOURCE_PATH t (l1 ++ r :: l2) fs = (fs, Raise (KeyError k)) /\
     (forall sort,
        append RESOURCE_PATH t (l1 ++ r :: l2) sort fs = (fs, Raise (KeyError k))) /\
     (load RESOURCE_PATH t fs = (fs, Ok (l1 ++ r :: l2)) ->
      lint RESOURCE_PATH t fs = (fs, Raise (KeyError k)))).
Proof.
  intros Hl1 Hkeys Hc1 Hk.
  assert (forall h p mode', _write_helper h (l1 ++ r :: l2) p mode' fs
                            = (fs, Raise (KeyError k))) as Hw.
  { intros h p mode'. unfold _write_helper, mbind at 1, io_bind, lift.
    by rewrite (sorted_raise l1 r l2 c1 k c2). }
  split; [apply Hw|]. intros RESOURCE_PATH t. split; [|split].
  - rewrite write_unfold. apply Hw.
  - intros sort. rewrite append_unfold. unfold mbind, io_bind. by rewrite Hw.
  - intros Hload. rewrite lint_unfold. unfold mbind at 1, io_bind. rewrite Hload.
    unfold mbind, io_bind, lift. by rewrite (sorted_raise l1 r l2 c1 k c2).
Qed.

Lemma _write_helper_missing_key_witness :
  write "resources" true_mappings
    [sample_mapping "a"; {[ "source prefix" := "b" ]}] sample_fs
  = (sample_fs, Raise (KeyError "source identifier")).
Proof.
  apply (_write_helper_missing_key MAPPINGS_HEADER [sample_mapping "a"] []
           {[ "source prefix" := "b" ]} ["source prefix"]
           [ "relation"; "target prefix"; "target identifier"; "type"; "source" ]
           "source identifier" "t.tsv" mode_w sample_fs).
  - apply (wf_has_columns KEY_COLUMNS). repeat constructor.
  - reflexivity.
  - intros c Hc. apply list_elem_of_singleton in Hc. subst c.
    exists "b". apply lookup_singleton_eq.
  - reflexivity.
Defined.

Lemma for_each_print_raise h path l1 r l2 h1 k h2 : forall fs text,
  Forall (has_columns h) l1 ->
  h = h1 ++ k :: h2 -> has_columns h1 r -> r !! k = None ->
  fs !! path = Some text ->
  for_each (l1 ++ r :: l2) (fun line =>
    items ← lift (comprehension (getitem line) h); print path items) fs
  = (<[path := text +:+ rows_text h l1]> fs, Raise (KeyError k)).
Proof.
  intros fs text Hl1 Hh Hh1 Hk. revert fs text.
  induction l1 as [|r1 l1 IH]; intros fs text Hfile.
  { simpl. unfold mbind, io_bind, lift. rewrite Hh, getitem_raise by done.
    unfold rows_text. simpl. by rewrite append_nil_r, insert_id. }
  apply Forall_cons in Hl1 as [Hr1 Hl1]. simpl.
  erewrite io_bind_ok; cycle 1.
  { erewrite io_bind_ok; [|by unfold lift; rewrite getitem_row_of].
    unfold print. reflexivity. }
  rewrite (IH Hl1 _ (text +:+ print_text (row_of h r1))).
  - f_equal. rewrite insert_alter.
    unfold rows_text. rewrite fmap_cons. simpl. by rewrite append_assoc.
  - by rewrite lookup_alter_eq, Hfile.
Qed.

(** X4: a record that has the columns of the key but lacks another column
    of the header stops a write half way.  The rows are written in sorted
    order up to this record, and the key error names its first missing
    column; by then an overwrite has replaced the old table by the header
    line and these rows, and an append has added them. *)
Theorem _write_helper_missing_column (header : list string) (lod l1 l2 : list Mapping)
    (r : Mapping) (h1 h2 : list string) (k path : string) (fs : filesystem) :
  Forall (has_columns KEY_COLUMNS) lod ->
  sort_records lod = l1 ++ r :: l2 ->
  Forall (has_columns header) l1 ->
  header = h1 ++ k :: h2 -> has_columns h1 r -> r !! k = None ->
  _write_helper header lod path mode_w fs
  = (<[path := table_text header l1]> fs, Raise (KeyError k)) /\
  _write_helper header lod path mode_a fs
  = (<[path := default "" (fs !! path) +:+ rows_text header l1]> fs,
     Raise (KeyError k)).
Proof.
  intros Hkeys Hsort Hl1 Hh Hh1 Hk. split.
  - unfold _write_helper.
    erewrite io_bind_ok; [|by unfold lift; rewrite sorted_ok].
    erewrite io_bind_ok; [|by unfold open_].
    erewrite io_bind_ok; [|by unfold print].
    rewrite Hsort.
    erewrite (for_each_print_raise header path l1 r l2 h1 k h2); [|done..|].
    + f_equal. by rewrite insert_alter, insert_insert_eq.
    + by rewrite lookup_alter_eq, lookup_insert_eq.
  - unfold _write_helper.
    erewrite io_bind_ok; [|by unfold lift; rewrite sorted_ok].
    rewrite Hsort.
    destruct (fs !! path) as [text|] eqn:Hfile.
    + erewrite io_bind_ok; [|by unfold open_; rewrite Hfile].
      erewrite io_bind_ok; [|done].
      by erewrite (for_each_print_raise header path l1 r l2 h1 k h2).
    + erewrite io_bind_ok; [|by unfold open_; rewrite Hfile].
      erewrite io_bind_ok; [|done].
      erewrite (for_each_print_raise header path l1 r l2 h1 k h2);
        [|done..|apply lookup_insert_eq].
      by rewrite insert_insert_eq.
Qed.

Lemma _write_helper_missing_column_witness :
  write_predictions "resources" [sample_mapping "b"] sample_tables
  = (<[PREDICTIONS_PATH "resources" := table_text PREDICTIONS_HEADER []]>
       sample_tables, Raise (KeyError "confidence")).
Proof.
  apply (_write_helper_missing_column PREDICTIONS_HEADER [sample_mapping "b"] [] []
           (sample_mapping "b")
           [ "source prefix"; "source identifier"; "source name"; "relation";
             "target prefix"; "target identifier"; "target name"; "type" ]
           ["source"] "confidence" (PREDICTIONS_PATH "resources") sample_tables).
  - apply (wf_has_columns KEY_COLUMNS). repeat constructor.
  - reflexivity.
  - constructor.
  - reflexivity.
  - assert (Forall (fun r => wf_record
              [ "source prefix"; "source identifier"; "source name"; "relation";
                "target prefix"; "target identifier"; "target name"; "type" ] r = true)
              [sample_mapping "b"]) as Hwf by repeat constructor.
    exact (Forall_inv (wf_has_columns _ _ Hwf)).
  - reflexivity.
Defined.

(** ** Writing and reading back *)

(** X5: a table that is written and then loaded comes back sorted and cut
    down to the columns of the header.  For records that have the columns
    of the header with plain values, the overwrite returns and the next load
    returns the records in the order of the sort, each with the columns of
    the header and the values it had, and without any other column it had;
    records of the schema come back as they were. *)
Theorem write_then_load (RESOURCE_PATH : string) (t : table) (m : list Mapping)
    (fs : filesystem) :
  Forall (fun r => wf_record (header_of t) r = true) m ->
  table_after RESOURCE_PATH t (write RESOURCE_PATH t m) fs
    (project (header_of t) <$> sort_records m) /\
  (forall r k, r ∈ m ->
     project (header_of t) r !! k = if decide (k ∈ header_of t) then r !! k else None) /\
  (Forall (fun r => schema_record (header_of t) r = true) m ->
   project (header_of t) <$> sort_records m = sort_records m).
Proof.
  intros Hm. split; [|split].
  - apply table_after_insert; [by apply write_run, wf_has_columns|].
    by apply sort_records_Forall.
  - intros r k Hr. rewrite project_lookup. case_decide as Hk; [|done].
    rewrite Forall_forall in Hm.
    by destruct (wf_record_lookup _ r k (Hm r Hr) Hk) as (v & -> & _).
  - intros Hs. by apply project_schema_records, sort_records_Forall.
Qed.

Lemma write_then_load_witness :
  table_after "resources" predictions
    (write "resources" predictions
       [ <["note" := "x"]> (sample_prediction "ns1" "B" "ns2" "C" "0.7");
         sample_prediction "ns1" "A" "ns2" "C" "0.8" ])
    sample_tables
    (project PREDICTIONS_HEADER <$>
       sort_records
         [ <["note" := "x"]> (sample_prediction "ns1" "B" "ns2" "C" "0.7");
           sample_prediction "ns1" "A" "ns2" "C" "0.8" ]).
Proof.
  apply (write_then_load "resources" predictions).
  repeat constructor.
Defined.

(** ** The order of the sort *)

Lemma ascii_compare_lt_trans a b c :
  Ascii.compare a b = Lt -> Ascii.compare b c = Lt -> Ascii.compare a c = Lt.
Proof. unfold Ascii.compare. rewrite !N.compare_lt_iff. lia. Qed.

Lemma string_compare_lt_trans a : forall b c,
  String.compare a b = Lt -> String.compare b c = Lt -> String.compare a c = Lt.
Proof.
  induction a as [|x a IH]; intros [|y b] [|z c]; try done.
  simpl.
  destruct (Ascii.compare x y) eqn:Hxy; try done;
    destruct (Ascii.compare y z) eqn:Hyz; try done.
  - apply Ascii.compare_eq_iff in Hxy as ->. rewrite Hyz. apply IH.
  - apply Ascii.compare_eq_iff in Hxy as ->. by rewrite Hyz.
  - apply Ascii.compare_eq_iff in Hyz as <-. by rewrite Hxy.
  - by rewrite (ascii_compare_lt_trans x y z).
Qed.

Lemma tuple_compare_lt_trans a : forall b c,
  tuple_compare a b = Lt -> tuple_compare b c = Lt -> tuple_compare a c = Lt.
Proof.
  induction a as [|x a IH]; intros [|y b] [|z c]; try done.
  simpl.
  destruct (String.compare x y) eqn:Hxy; try done;
    destruct (String.compare y z) eqn:Hyz; try done.
  - apply String.compare_eq_iff in Hxy as ->. rewrite Hyz. apply IH.
  - apply String.compare_eq_iff in Hxy as ->. by rewrite Hyz.
  - apply String.compare_eq_iff in Hyz as <-. by rewrite Hxy.
  - by rewrite (string_compare_lt_trans x y z).
Qed.

Lemma tuple_le_trans a b c :
  tuple_le a b = true -> tuple_le b c = true -> tuple_le a c = true.
Proof.
  unfold tuple_le.
  destruct (tuple_compare a b) eqn:Hab; try done;
    destruct (tuple_compare b c) eqn:Hbc; try done; intros _ _.
  - apply tuple_compare_eq in Hab as ->. by rewrite Hbc.
  - apply tuple_compare_eq in Hab as ->. by rewrite Hbc.
  - apply tuple_compare_eq in Hbc as <-. by rewrite Hab.
  - by rewrite (tuple_compare_lt_trans a b c).
Qed.

Lemma tuple_le_antisym a b : tuple_le a b = true -> tuple_le b a = true -> a = b.
Proof.
  unfold tuple_le. rewrite (tuple_compare_antisym b a).
  destruct (tuple_compare a b) eqn:Hab; try done. intros _ _.
  by apply tuple_compare_eq.
Qed.

Lemma tuple_lt_irrefl a : tuple_lt a a = false.
Proof. unfold tuple_lt. by rewrite tuple_compare_refl. Qed.

Lemma non_decreasing_Sorted keys :
  non_decreasing keys = true -> Sorted (fun a b => tuple_le a b = true) keys.
Proof.
  induction keys as [|k keys IH]; [constructor|].
  rewrite non_decreasing_cons. intros [Hk Hkeys]%andb_true_iff.
  constructor; [auto|]. destruct keys; by constructor.
Qed.

(** Two sorted lists of the same keys are the same list. *)
Lemma non_decreasing_unique keys1 keys2 :
  non_decreasing keys1 = true -> non_decreasing keys2 = true ->
  keys1 ≡ₚ keys2 -> keys1 = keys2.
Proof.
  intros H1%non_decreasing_Sorted H2%non_decreasing_Sorted.
  assert (Transitive (fun a b => tuple_le a b = true))
    by (intros a b c; apply tuple_le_trans).
  assert (AntiSymm (=) (fun a b => tuple_le a b = true))
    by (intros a b; apply tuple_le_antisym).
  apply (Sorted_unique (fun a b => tuple_le a b = true)); done.
Qed.

Lemma fmap_perm_inj {A B} (f : A -> B) (l1 : list A) : forall l2,
  l1 ≡ₚ l2 -> f <$> l1 = f <$> l2 -> NoDup (f <$> l1) -> l1 = l2.
Proof.
  induction l1 as [|x l1 IH]; intros [|y l2] Hperm Heq Hnd; try done.
  rewrite !fmap_cons in Heq. injection Heq as Hxy Heq.
  rewrite fmap_cons in Hnd. apply NoDup_cons in Hnd as [Hx Hnd].
  assert (x = y) as <-.
  { assert (x ∈ y :: l2) as [->|Hin]%elem_of_cons by (rewrite <- Hperm; left);
      [done|].
    exfalso. apply Hx. rewrite Heq. by apply list_elem_of_fmap_2. }
  f_equal. apply IH; [|done..]. by apply (inj (cons x)).
Qed.

Section StableSort.
Context {A : Type}.
Implicit Types (x : list string * A) (l : list (list string * A)).

Lemma insert_by_key_filter k x l :
  filter (fun y => y.1 = k) (insert_by_key x l) = filter (fun y => y.1 = k) (x :: l).
Proof.
  induction l as [|y l IH]; [done|]. simpl.
  destruct (tuple_lt y.1 x.1) eqn:Hlt; [|done].
  rewrite (filter_cons _ y), IH, !(filter_cons _ x), (filter_cons _ y).
  destruct (decide (y.1 = k)) as [Hy|Hy], (decide (x.1 = k)) as [Hx|Hx]; try done.
  rewrite Hy, Hx, tuple_lt_irrefl in Hlt. done.
Qed.

Lemma sort_decorated_filter k l :
  filter (fun y => y.1 = k) (sort_decorated l) = filter (fun y => y.1 = k) l.
Proof.
  induction l as [|x l IH]; [done|].
  unfold sort_decorated in *. cbn [foldr].
  by rewrite insert_by_key_filter, !filter_cons, IH.
Qed.
End StableSort.

Lemma list_filter_fmap_comp {A B} (f : A -> B) (P : B -> Prop) `{!forall y, Decision (P y)}
    (l : list A) :
  filter P (f <$> l) = f <$> filter (fun x => P (f x)) l.
Proof.
  induction l as [|x l IH]; [done|].
  rewrite fmap_cons, !filter_cons. case_decide; by rewrite ?fmap_cons, IH.
Qed.

Lemma sort_records_filter k l :
  filter (fun r => key_of r = k) (sort_records l) = filter (fun r => key_of r = k) l.
Proof.
  pose proof (sort_decorated_filter k ((fun r => (key_of r, r)) <$> l)) as H.
  rewrite sort_decorated_keys, !list_filter_fmap_comp in H. simpl in H.
  apply (f_equal (fmap snd)) in H.
  rewrite <- !list_fmap_compose in H.
  by rewrite !list_fmap_id in H.
Qed.

Lemma sort_records_keys_perm l l' :
  l ≡ₚ l' -> key_of <$> sort_records l = key_of <$> sort_records l'.
Proof.
  intros Hperm. apply non_decreasing_unique; [apply sort_records_sorted..|].
  by rewrite !sort_records_perm, Hperm.
Qed.

Lemma sort_records_perm_eq l l' :
  l ≡ₚ l' -> NoDup (key_of <$> l) -> sort_records l = sort_records l'.
Proof.
  intros Hperm Hnd. apply (fmap_perm_inj key_of).
  - by rewrite !sort_records_perm.
  - by apply sort_records_keys_perm.
  - by rewrite sort_records_perm.
Qed.

(** X6: the sort of a write is stable.  What [sorted] returns for the key
    [mapping_sort_key] has the records of the list in non-decreasing order
    of the key, and the records of one key in the order in which they went
    in: a write or a lint reorders rows between keys and never within a
    key. *)
Theorem sorted_stable (l s : list Mapping) :
  sorted l mapping_sort_key = Ok s ->
  s ≡ₚ l /\
  non_decreasing (key_of <$> s) = true /\
  (forall k, filter (fun r => key_of r = k) s = filter (fun r => key_of r = k) l).
Proof.
  intros Hs. apply sorted_inv in Hs as [_ Hs]. subst s.
  split; [apply sort_records_perm|]. split; [apply sort_records_sorted|].
  intros k. apply sort_records_filter.
Qed.

Lemma sorted_stable_witness :
  let first := named_mapping "a" "first" in
  let second := named_mapping "a" "second" in
  filter (fun r => key_of r = key_of first) [first; second; sample_mapping "b"]
  = filter (fun r => key_of r = key_of first)
      [sample_mapping "b"; first; second].
Proof.
  intros first second.
  apply (sorted_stable [sample_mapping "b"; first; second]
           [first; second; sample_mapping "b"]).
  vm_compute. exact eq_refl.
Defined.

(** X7: the file that a write leaves does not depend on the order in which
    the records are given, when no two of them have the same key: two lists
    with the same records are written as the same file.  With keys that
    repeat, the keys of the rows still come in one order. *)
Theorem write_order_independent (RESOURCE_PATH : string) (t : table)
    (m m' : list Mapping) (fs : filesystem) :
  m ≡ₚ m' ->
  Forall (has_columns (header_of t)) m ->
  key_of <$> sort_records m = key_of <$> sort_records m' /\
  (NoDup (key_of <$> m) ->
   write RESOURCE_PATH t m fs = write RESOURCE_PATH t m' fs /\
   write RESOURCE_PATH t m fs
   = (<[path_of RESOURCE_PATH t := table_text (header_of t) (sort_records m)]> fs,
      Ok tt)).
Proof.
  intros Hperm Hm. split; [by apply sort_records_keys_perm|].
  intros Hnd.
  rewrite !write_run by (by rewrite <- ?Hperm).
  by rewrite (sort_records_perm_eq m m').
Qed.

Lemma write_order_independent_witness :
  write "resources" true_mappings [sample_mapping "b"; sample_mapping "a"] sample_fs
  = write "resources" true_mappings [sample_mapping "a"; sample_mapping "b"] sample_fs.
Proof.
  apply (write_order_independent "resources" true_mappings
           [sample_mapping "b"; sample_mapping "a"]
           [sample_mapping "a"; sample_mapping "b"] sample_fs).
  - apply Permutation_swap.
  - apply (wf_has_columns MAPPINGS_HEADER). repeat constructor.
  - apply (bool_decide_unpack _). vm_compute. exact I.
Defined.

(** ** From a dictionary to a typed tuple *)

Lemma comprehension_getitem_inv {V} (d : gmap string V) h : forall items,
  comprehension (getitem d) h = Ok items ->
  Forall2 (fun k v => d !! k = Some v) h items.
Proof.
  induction h as [|k h IH]; intros items.
  { intros [= <-]. constructor. }
  cbn [comprehension].
  change (getitem d k)
    with (match d !! k with Some v => Ok v | None => Raise (KeyError k) end).
  destruct (d !! k) as [v|] eqn:Hk; [|done]. cbn.
  destruct (comprehension (getitem d) h) as [items'|]; [|done]. cbn.
  intros [= <-]. constructor; [done|]. by apply IH.
Qed.

Lemma comprehension_getitem_ok {V} (d : gmap string V) h :
  (forall k, k ∈ h -> is_Some (d !! k)) ->
  exists items, comprehension (getitem d) h = Ok items /\ length items = length h.
Proof.
  induction h as [|k h IH]; intros Hh; [by exists []|].
  destruct (Hh k) as [v Hv]; [by left|].
  destruct IH as (items & Hitems & Hlen); [intros c Hc; apply Hh; by right|].
  exists (v :: items). cbn [comprehension].
  change (getitem d k)
    with (match d !! k with Some v => Ok v | None => Raise (KeyError k) end).
  rewrite Hv. cbn. rewrite Hitems. cbn. by rewrite Hlen.
Qed.

(** [dict(zip(header, items))] of the items that a dictionary has under the
    names of the header is the dictionary cut down to the header. *)
Lemma dict_zip_restrict {V} (d : gmap string V) h items k :
  Forall2 (fun k v => d !! k = Some v) h items ->
  dict (zip h items) !! k = if decide (k ∈ h) then d !! k else None.
Proof.
  intros Hitems. unfold dict.
  assert (forall acc : gmap string V,
    foldl (fun d kv => <[kv.1 := kv.2]> d) acc (zip h items) !! k
    = if decide (k ∈ h) then d !! k else acc !! k) as Hgen.
  { induction Hitems as [|k0 v0 h items Hk0 _ IH]; intros acc; [done|].
    simpl. rewrite IH.
    destruct (decide (k ∈ h)) as [Hin|Hnin].
    - rewrite decide_True; [done|by right].
    - destruct (decide (k = k0)) as [->|Hne].
      + rewrite decide_True by left. by rewrite lookup_insert_eq.
      + rewrite decide_False by (by intros [?|?]%elem_of_cons).
        by rewrite lookup_insert_ne. }
  rewrite Hgen. by case_decide.
Qed.

Lemma MappingTuple_from_dict_items {V} (d : gmap string V) x :
  MappingTuple.from_dict d = Ok x ->
  comprehension (getitem d) MAPPINGS_HEADER = Ok (MappingTuple.to_list x).
Proof.
  unfold MappingTuple.from_dict.
  destruct (comprehension (getitem d) MAPPINGS_HEADER) as [items|]; [|done]. cbn.
  do 10 (destruct items as [|? items]; try done). by intros [= <-].
Qed.

Lemma PredictionTuple_from_dict_items {V} (d : gmap string V) x :
  PredictionTuple.from_dict d = Ok x ->
  comprehension (getitem d) PREDICTIONS_HEADER = Ok (PredictionTuple.to_list x).
Proof.
  unfold PredictionTuple.from_dict.
  destruct (comprehension (getitem d) PREDICTIONS_HEADER) as [items|]; [|done]. cbn.
  do 11 (destruct items as [|? items]; try done). by intros [= <-].
Qed.

Lemma MappingTuple_from_dict_ok {V} (d : gmap string V) :
  (forall k, k ∈ MAPPINGS_HEADER -> is_Some (d !! k)) ->
  exists x, MappingTuple.from_dict d = Ok x.
Proof.
  intros (items & Hitems & Hlen)%comprehension_getitem_ok.
  unfold MappingTuple.from_dict. rewrite Hitems. cbn.
  do 10 (destruct items as [|? items]; try done). eauto.
Qed.

Lemma PredictionTuple_from_dict_ok {V} (d : gmap string V) :
  (forall k, k ∈ PREDICTIONS_HEADER -> is_Some (d !! k)) ->
  exists x, PredictionTuple.from_dict d = Ok x.
Proof.
  intros (items & Hitems & Hlen)%comprehension_getitem_ok.
  unfold PredictionTuple.from_dict. rewrite Hitems. cbn.
  do 11 (destruct items as [|? items]; try done). eauto.
Qed.

(** X8: from a dictionary to a typed tuple and back.  [from_dict] returns a
    tuple exactly when the dictionary has every column of the header; the
    tuple holds the values of these columns and nothing of any other key, so
    [as_dict(from_dict(d))] is [d] cut down to the header.  When a column is
    missing, the key error names the first one in the order of the
    header. *)
Theorem as_dict_from_dict (V : Type) (d : gmap string V) :
  ((forall x, MappingTuple.from_dict d = Ok x ->
      forall k, MappingTuple.as_dict x !! k
                = if decide (k ∈ MAPPINGS_HEADER) then d !! k else None) /\
   ((forall k, k ∈ MAPPINGS_HEADER -> is_Some (d !! k)) <->
    exists x, MappingTuple.from_dict d = Ok x) /\
   (forall h1 k h2,
      MAPPINGS_HEADER = h1 ++ k :: h2 ->
      (forall c, c ∈ h1 -> is_Some (d !! c)) -> d !! k = None ->
      MappingTuple.from_dict d = Raise (KeyError k))) /\
  ((forall x, PredictionTuple.from_dict d = Ok x ->
      forall k, PredictionTuple.as_dict x !! k
                = if decide (k ∈ PREDICTIONS_HEADER) then d !! k else None) /\
   ((forall k, k ∈ PREDICTIONS_HEADER -> is_Some (d !! k)) <->
    exists x, PredictionTuple.from_dict d = Ok x) /\
   (forall h1 k h2,
      PREDICTIONS_HEADER = h1 ++ k :: h2 ->
      (forall c, c ∈ h1 -> is_Some (d !! c)) -> d !! k = None ->
      PredictionTuple.from_dict d = Raise (KeyError k))).
Proof.
  split.
  - assert (forall x, MappingTuple.from_dict d = Ok x ->
              forall k, MappingTuple.as_dict x !! k
                        = if decide (k ∈ MAPPINGS_HEADER) then d !! k else None) as Hinv.
    { intros x Hx k. apply dict_zip_restrict.
      by apply comprehension_getitem_inv, MappingTuple_from_dict_items. }
    split; [exact Hinv|]. split.
    + split; [apply MappingTuple_from_dict_ok|].
      intros [x Hx] k Hk.
      apply MappingTuple_from_dict_items, comprehension_getitem_inv in Hx.
      apply list_elem_of_lookup in Hk as [i Hi].
      destruct (Forall2_lookup_l _ _ _ _ _ Hx Hi) as (v & _ & Hv). by exists v.
    + intros h1 k h2 Hh Hh1 Hk. unfold MappingTuple.from_dict.
      by rewrite Hh, getitem_raise.
  - assert (forall x, PredictionTuple.from_dict d = Ok x ->
              forall k, PredictionTuple.as_dict x !! k
                        = if decide (k ∈ PREDICTIONS_HEADER) then d !! k else None)
      as Hinv.
    { intros x Hx k. apply dict_zip_restrict.
      by apply comprehension_getitem_inv, PredictionTuple_from_dict_items. }
    split; [exact Hinv|]. split.
    + split; [apply PredictionTuple_from_dict_ok|].
      intros [x Hx] k Hk.
      apply PredictionTuple_from_dict_items, comprehension_getitem_inv in Hx.
      apply list_elem_of_lookup in Hk as [i Hi].
      destruct (Forall2_lookup_l _ _ _ _ _ Hx Hi) as (v & _ & Hv). by exists v.
    + intros h1 k h2 Hh Hh1 Hk. unfold PredictionTuple.from_dict.
      by rewrite Hh, getitem_raise.
Qed.

Lemma as_dict_from_dict_witness :
  PredictionTuple.from_dict (sample_mapping "a") = Raise (KeyError "confidence").
Proof.
  apply (proj2 (proj2 (proj2 (as_dict_from_dict string (sample_mapping "a"))))
           [ "source prefix"; "source identifier"; "source name"; "relation";
             "target prefix"; "target identifier"; "target name"; "type" ]
           "confidence" ["source"]).
  - reflexivity.
  - assert (Forall (fun r => wf_record
              [ "source prefix"; "source identifier"; "source name"; "relation";
                "target prefix"; "target identifier"; "target name"; "type" ] r = true)
              [sample_mapping "a"]) as Hwf by repeat constructor.
    exact (Forall_inv (wf_has_columns _ _ Hwf)).
  - reflexivity.
Defined.

(** ** Appending typed tuples *)

Lemma MappingTuple_row_of (x : MappingTuple.t string) :
  row_of MAPPINGS_HEADER (MappingTuple.as_dict x) = MappingTuple.to_list x /\
  has_columns MAPPINGS_HEADER (MappingTuple.as_dict x).
Proof.
  destruct x.
  unfold row_of, has_columns, MappingTuple.as_dict, MappingTuple.to_list,
    MAPPINGS_HEADER, dict.
  cbn [zip zip_with foldl fst snd fmap list_fmap].
  split.
  - repeat (rewrite ?lookup_insert_eq; rewrite ?lookup_insert_ne by done; cbn). done.
  - intros k Hk. repeat (apply elem_of_cons in Hk as [->|Hk]);
      [repeat (rewrite ?lookup_insert_eq; rewrite ?lookup_insert_ne by done);
       by eexists..|].
    by apply elem_of_nil in Hk.
Qed.

Lemma PredictionTuple_row_of (x : PredictionTuple.t string) :
  row_of PREDICTIONS_HEADER (PredictionTuple.as_dict x) = PredictionTuple.to_list x /\
  has_columns PREDICTIONS_HEADER (PredictionTuple.as_dict x).
Proof.
  destruct x.
  unfold row_of, has_columns, PredictionTuple.as_dict, PredictionTuple.to_list,
    PREDICTIONS_HEADER, dict.
  cbn [zip zip_with foldl fst snd fmap list_fmap].
  split.
  - repeat (rewrite ?lookup_insert_eq; rewrite ?lookup_insert_ne by done; cbn). done.
  - intros k Hk. repeat (apply elem_of_cons in Hk as [->|Hk]);
      [repeat (rewrite ?lookup_insert_eq; rewrite ?lookup_insert_ne by done);
       by eexists..|].
    by apply elem_of_nil in Hk.
Qed.

(** Sorting the dictionaries of tuples is sorting the tuples. *)
Lemma sort_records_tuples {X} (as_dict : X -> Mapping) (l : list X) :
  exists sorted_tuples,
    sorted_tuples ≡ₚ l /\ sort_records (as_dict <$> l) = as_dict <$> sorted_tuples.
Proof.
  exists (snd <$> sort_decorated ((fun x => (key_of (as_dict x), x)) <$> l)).
  split.
  - rewrite sort_decorated_perm, <- list_fmap_compose. by rewrite list_fmap_id.
  - unfold sort_records. rewrite <- !list_fmap_compose.
    rewrite (list_fmap_ext _ (prod_map id as_dict ∘ (fun x => (key_of (as_dict x), x))) l)
      by done.
    rewrite list_fmap_compose, sort_decorated_fmap, <- !list_fmap_compose.
    apply list_fmap_ext. by intros i [k r] _.
Qed.

(** X9: appending typed tuples never fails for want of a column.  For
    tuples of strings, [append_true_mapping_tuples] and
    [append_prediction_tuples] without deduplication return for every list
    of tuples and every state of the files: they add one line per tuple,
    made of its fields in the order of their declaration, the lines in the
    order of the keys of the tuples, after what the file had. *)
Theorem append_tuples_run (RESOURCE_PATH : string) (fs : filesystem) :
  (forall mappings : list (MappingTuple.t string),
     exists sorted_tuples,
       sorted_tuples ≡ₚ mappings /\
       sort_records (MappingTuple.as_dict <$> mappings)
       = MappingTuple.as_dict <$> sorted_tuples /\
       append_true_mapping_tuples RESOURCE_PATH mappings fs
       = (<[TRUE_MAPPINGS_PATH RESOURCE_PATH :=
              default "" (fs !! TRUE_MAPPINGS_PATH RESOURCE_PATH)
              +:+ text_of_rows (MappingTuple.to_list <$> sorted_tuples)]> fs, Ok tt)) /\
  (forall prediction_tuples : list (PredictionTuple.t string),
     exists sorted_tuples,
       sorted_tuples ≡ₚ prediction_tuples /\
       sort_records (PredictionTuple.as_dict <$> prediction_tuples)
       = PredictionTuple.as_dict <$> sorted_tuples /\
       append_prediction_tuples RESOURCE_PATH prediction_tuples false false fs
       = (<[PREDICTIONS_PATH RESOURCE_PATH :=
              default "" (fs !! PREDICTIONS_PATH RESOURCE_PATH)
              +:+ text_of_rows (PredictionTuple.to_list <$> sorted_tuples)]> fs, Ok tt)).
Proof.
  split.
  - intros mappings.
    destruct (sort_records_tuples MappingTuple.as_dict mappings)
      as (sorted_tuples & Hperm & Hsort).
    exists sorted_tuples. split; [done|]. split; [done|].
    etrans.
    { apply (append_plain_run RESOURCE_PATH true_mappings).
      apply Forall_fmap, Forall_true. intros x. apply MappingTuple_row_of. }
    rewrite Hsort. unfold rows_text. rewrite <- list_fmap_compose.
    do 4 f_equal. apply list_fmap_ext. intros i x _. apply MappingTuple_row_of.
  - intros prediction_tuples.
    destruct (sort_records_tuples PredictionTuple.as_dict prediction_tuples)
      as (sorted_tuples & Hperm & Hsort).
    exists sorted_tuples. split; [done|]. split; [done|].
    etrans.
    { apply (append_plain_run RESOURCE_PATH predictions).
      apply Forall_fmap, Forall_true. intros x. apply PredictionTuple_row_of. }
    rewrite Hsort. unfold rows_text. rewrite <- list_fmap_compose.
    do 4 f_equal. apply list_fmap_ext. intros i x _. apply PredictionTuple_row_of.
Qed.

(** ** Appending to a table that has no file *)

Lemma load_text_of_rows RESOURCE_PATH t (fs : filesystem) r rest :
  fs !! path_of RESOURCE_PATH t = Some (rows_text (header_of t) (r :: rest)) ->
  Forall (fun r => wf_record (header_of t) r = true) (r :: rest) ->
  load RESOURCE_PATH t fs
  = (fs, Ok ((fun row => dict (zip (row_of (header_of t) r) row))
               <$> (row_of (header_of t) <$> rest))).
Proof.
  intros Hfile Hwf. rewrite load_unfold.
  apply _load_table_text_of_rows; [done|].
  change (forallb plain_row (row_of (header_of t) <$> r :: rest) = true).
  apply forallb_Forall, Forall_fmap. eapply Forall_impl; [exact Hwf|].
  intros r' Hr'. apply row_of_plain_row; [apply good_header_of|done].
Qed.

(** X10: an append to a table whose file is missing creates the file
    without a header line.  The file holds the lines of the batch only, so
    the next load takes the first of them for the header: it returns one
    record less than was appended, the others under the values of the first
    as column names; after an empty batch the file is empty and the load
    raises [StopIteration].  With [deduplicate=True] a missing predictions
    file is an error instead, and nothing is created. *)
Theorem append_missing_file (RESOURCE_PATH : string) (t : table) (m : list Mapping)
    (fs : filesystem) :
  fs !! path_of RESOURCE_PATH t = None ->
  Forall (fun r => wf_record (header_of t) r = true) m ->
  let fs' := <[path_of RESOURCE_PATH t :=
                 rows_text (header_of t) (sort_records m)]> fs in
  append RESOURCE_PATH t m false fs = (fs', Ok tt) /\
  (m = [] -> load RESOURCE_PATH t fs' = (fs', Raise StopIteration)) /\
  (forall r rest, sort_records m = r :: rest ->
     load RESOURCE_PATH t fs'
     = (fs', Ok ((fun row => dict (zip (row_of (header_of t) r) row))
                   <$> (row_of (header_of t) <$> rest)))) /\
  (t = predictions ->
   forall T F sort,
     load_mappings RESOURCE_PATH fs = (fs, Ok T) ->
     load_false_mappings RESOURCE_PATH fs = (fs, Ok F) ->
     append_predictions RESOURCE_PATH m true sort fs
     = (fs, Raise (FileNotFoundError (PREDICTIONS_PATH RESOURCE_PATH)))).
Proof.
  intros Hfile Hm fs'. split; [|split; [|split]].
  - rewrite append_plain_run by by apply wf_has_columns. by rewrite Hfile.
  - intros ->. rewrite load_unfold.
    unfold _load_table, mbind, io_bind, read_text. subst fs'.
    by rewrite lookup_insert_eq.
  - intros r rest Hsort. apply load_text_of_rows.
    + subst fs'. by rewrite lookup_insert_eq, Hsort.
    + rewrite <- Hsort. by apply sort_records_Forall.
  - intros -> T F sort HT HF.
    change (fs !! PREDICTIONS_PATH RESOURCE_PATH = None) in Hfile.
    unfold append_predictions.
    unfold mbind at 1, io_bind.
    erewrite io_bind_ok; [|exact HT].
    erewrite io_bind_ok; [|exact HF].
    unfold load_predictions, _load_table, mbind, io_bind, read_text.
    by rewrite Hfile.
Qed.

Lemma append_missing_file_witness :
  let fs' := <[path_of "resources" unsure :=
                 rows_text MAPPINGS_HEADER
                   (sort_records [sample_mapping "b"; sample_mapping "a"])]> sample_fs in
  append "resources" unsure [sample_mapping "b"; sample_mapping "a"] false sample_fs
  = (fs', Ok tt).
Proof.
  apply (append_missing_file "resources" unsure
           [sample_mapping "b"; sample_mapping "a"] sample_fs).
  - apply lookup_singleton_ne. discriminate.
  - repeat constructor.
Defined.

(** X11: a single record appended with [sort=True] to a table whose file is
    missing is lost.  The append creates the file with the line of the
    record, the reload for the sort takes this line for the header and
    finds no row, and the sorted rewrite leaves the header line alone: the
    call returns, and the table is empty. *)
Theorem append_sort_missing_file (RESOURCE_PATH : string) (t : table) (r : Mapping)
    (fs : filesystem) :
  fs !! path_of RESOURCE_PATH t = None ->
  wf_record (header_of t) r = true ->
  let fs' := <[path_of RESOURCE_PATH t := table_text (header_of t) []]> fs in
  append RESOURCE_PATH t [r] true fs = (fs', Ok tt) /\
  load RESOURCE_PATH t fs' = (fs', Ok []).
Proof.
  intros Hfile Hr fs'. split.
  - rewrite append_sort_unfold.
    erewrite io_bind_ok; cycle 1.
    { rewrite append_plain_run by by apply wf_has_columns; constructor.
      by rewrite Hfile. }
    erewrite (lint_run RESOURCE_PATH t _ []); [|
      apply (load_text_of_rows RESOURCE_PATH t _ r []);
        [apply lookup_insert_eq|by constructor] | constructor].
    subst fs'. by rewrite insert_insert_eq.
  - apply (load_insert RESOURCE_PATH t fs []). constructor.
Qed.

Lemma append_sort_missing_file_witness :
  append "resources" unsure [sample_mapping "a"] true sample_fs
  = (<[path_of "resources" unsure := table_text MAPPINGS_HEADER []]> sample_fs, Ok tt).
Proof.
  apply (append_sort_missing_file "resources" unsure (sample_mapping "a") sample_fs).
  - apply lookup_singleton_ne. discriminate.
  - reflexivity.
Defined.

(** ** A filter that excludes nothing *)

Lemma filter_all {A} (P : A -> Prop) `{!forall x, Decision (P x)} (l : list A) :
  Forall P l -> filter P l = l.
Proof.
  induction 1 as [|x l Hx _ IH]; [done|].
  by rewrite filter_cons, decide_True, IH.
Qed.

Lemma filter_none {A} (P : A -> Prop) `{!forall x, Decision (P x)} (l : list A) :
  Forall (fun x => ~ P x) l -> filter P l = [].
Proof.
  induction 1 as [|x l Hx _ IH]; [done|].
  by rewrite filter_cons, decide_False, IH.
Qed.

Lemma _check_filter_keyed p custom_filter :
  has_columns KEY_COLUMNS p ->
  _check_filter p custom_filter = Ok (bool_decide (~ excluded custom_filter p)).
Proof.
  intros Hp.
  destruct (Hp "source prefix") as [sp Hsp]; [set_solver|].
  destruct (Hp "target prefix") as [tp Htp]; [set_solver|].
  destruct (Hp "source identifier") as [sid Hsid]; [set_solver|].
  destruct (Hp "target identifier") as [tid Htid]; [set_solver|].
  unfold _check_filter, getitem. rewrite Hsp, Htp, Hsid, Htid. cbn.
  rewrite filter_entry_get. f_equal.
  assert (excluded custom_filter p <->
          filter_entry custom_filter sp tp sid = Some tid) as Hex.
  { unfold excluded. by rewrite Hsp, Htp, Hsid, Htid. }
  destruct (decide (filter_entry custom_filter sp tp sid = Some tid)) as [He|He].
  - rewrite (bool_decide_eq_true_2 (Some tid = _)) by done.
    by rewrite bool_decide_eq_false_2 by tauto.
  - rewrite (bool_decide_eq_false_2 (Some tid = _)) by done.
    by rewrite bool_decide_eq_true_2 by tauto.
Qed.

Lemma _write_helper_sorted h l path mode :
  Forall (has_columns KEY_COLUMNS) l ->
  _write_helper h (sort_records l) path mode = _write_helper h l path mode.
Proof.
  intros Hl. unfold _write_helper.
  rewrite !sorted_ok by (try apply sort_records_Forall; done).
  by rewrite sort_records_idemp.
Qed.

(** X12: a filter that excludes none of the predictions is a lint.  When
    the filter names the target of no loaded prediction, as the empty
    filter does, [filter_predictions] ends as [lint_predictions] does, in
    the files and in the result, errors included. *)
Theorem filter_predictions_nothing (RESOURCE_PATH : string) (fs : filesystem)
    (P : list Mapping)
    (custom_filter : gmap string (gmap string (gmap string string))) :
  load_predictions RESOURCE_PATH fs = (fs, Ok P) ->
  Forall (has_columns KEY_COLUMNS) P ->
  Forall (fun p => ~ excluded custom_filter p) P ->
  filter_predictions RESOURCE_PATH custom_filter fs = lint_predictions RESOURCE_PATH fs /\
  (custom_filter = ∅ -> forall p : Mapping, ~ excluded custom_filter p).
Proof.
  intros Hload Hkeys Hnone. split.
  - unfold filter_predictions, lint_predictions.
    rewrite !(io_bind_ok (load_predictions RESOURCE_PATH) _ fs fs P Hload).
    erewrite io_bind_ok; cycle 1.
    { unfold lift.
      rewrite (comprehension_ok _
        (fun p => (p, bool_decide (~ excluded custom_filter p)))); [done|].
      intros p Hp. rewrite _check_filter_keyed; [done|].
      rewrite Forall_forall in Hkeys. by apply Hkeys. }
    erewrite io_bind_ok; [|by unfold lift; rewrite sorted_ok].
    rewrite filter_flags.
    replace (filter (fun p => bool_decide (~ excluded custom_filter p) = true) P)
      with P.
    + unfold write_predictions. by rewrite _write_helper_sorted.
    + symmetry. apply filter_all.
      eapply Forall_impl; [exact Hnone|]. intros p Hp. by apply bool_decide_eq_true.
  - intros -> p. unfold excluded, filter_entry. by rewrite lookup_empty.
Qed.

Lemma filter_predictions_nothing_witness :
  filter_predictions "resources" ∅ sample_tables = lint_predictions "resources" sample_tables.
Proof.
  apply (filter_predictions_nothing "resources" sample_tables
           [sample_prediction "ns1" "A" "ns2" "B" "0.9"] ∅).
  - exact (load_holds "resources" predictions sample_tables _
             (proj2 (proj2 sample_tables_hold))).
  - apply (wf_has_columns KEY_COLUMNS). repeat constructor.
  - repeat constructor. unfold excluded, filter_entry. by rewrite lookup_empty.
Defined.

(** ** Deduplication, twice *)

Lemma _load_table_insert_ne fname path text (fs : filesystem) r :
  fname <> path ->
  _load_table fname fs = (fs, r) ->
  _load_table fname (<[path := text]> fs) = (<[path := text]> fs, r).
Proof.
  intros Hne Hload.
  destruct (_load_table fname (<[path := text]> fs)) as [fs1 r1] eqn:H1.
  pose proof (_load_table_fs _ _ _ _ H1) as ->.
  pose proof (_load_table_ext fname fs (<[path := text]> fs)) as Hext.
  rewrite H1, Hload in Hext. simpl in Hext. rewrite Hext; [done|].
  by rewrite lookup_insert_ne.
Qed.

(** X13: deduplication makes the append of predictions idempotent.  For a
    well-formed predictions table and batch, a second call with the same
    batch and [deduplicate=True] finds every record of the batch in the
    tables and appends nothing: the files stay as the first call left
    them. *)
Theorem append_predictions_twice (RESOURCE_PATH : string) (fs : filesystem)
    (T F P m : list Mapping) (sort : bool) :
  load_mappings RESOURCE_PATH fs = (fs, Ok T) ->
  load_false_mappings RESOURCE_PATH fs = (fs, Ok F) ->
  Forall (has_columns KEY_COLUMNS) (T ++ F) ->
  holds_table fs (PREDICTIONS_PATH RESOURCE_PATH) PREDICTIONS_HEADER P ->
  Forall (fun r => wf_record PREDICTIONS_HEADER r = true) m ->
  exists fs' after,
    append_predictions RESOURCE_PATH m true sort fs = (fs', Ok tt) /\
    load_predictions RESOURCE_PATH fs' = (fs', Ok after) /\
    survivors (existing_keys T F after) m = [] /\
    append_predictions RESOURCE_PATH m true sort fs' = (fs', Ok tt) /\
    append_predictions RESOURCE_PATH m true false fs' = (fs', Ok tt).
Proof.
  intros HT HF Hkeys HP Hm.
  pose proof HP as (Hfile & Hs & Hwf)%holds_table_inv.
  pose proof (load_holds RESOURCE_PATH predictions fs P HP) as HloadP.
  set (S := survivors (existing_keys T F P) m).
  set (after := if sort
                then sort_records (P ++ (project PREDICTIONS_HEADER <$> S))
                else P ++ sort_records (project PREDICTIONS_HEADER <$> S)).
  set (fs' := <[PREDICTIONS_PATH RESOURCE_PATH := table_text PREDICTIONS_HEADER after]> fs).
  assert (Forall (has_columns KEY_COLUMNS) (T ++ F ++ P)) as HkeysP.
  { rewrite app_assoc. apply Forall_app. split; [done|].
    by apply (wf_keyed predictions). }
  assert (Forall (has_columns KEY_COLUMNS) m) as Hmk by by apply (wf_keyed predictions).
  assert (Forall (fun r => wf_record PREDICTIONS_HEADER r = true) S) as HS
    by by apply survivors_wf.
  assert (append_predictions RESOURCE_PATH m true sort fs = (fs', Ok tt)) as Hrun.
  { rewrite (append_predictions_run RESOURCE_PATH fs T F P m sort) by done.
    exact (append_run RESOURCE_PATH predictions fs P S sort HP HS). }
  assert (after ≡ₚ P ++ (project PREDICTIONS_HEADER <$> S)) as Hperm.
  { unfold after. destruct sort; by rewrite sort_records_perm. }
  assert (Forall (fun r => schema_record PREDICTIONS_HEADER r = true) after) as Hafter.
  { rewrite Hperm. apply Forall_app. split; [done|].
    apply Forall_fmap. eapply Forall_impl; [exact HS|].
    intros r Hr. by apply project_schema. }
  assert (holds_table fs' (PREDICTIONS_PATH RESOURCE_PATH) PREDICTIONS_HEADER after)
    as HP'.
  { split; [apply lookup_insert_eq|by apply forallb_Forall]. }
  pose proof (load_holds RESOURCE_PATH predictions fs' after HP') as HloadP'.
  assert (load_mappings RESOURCE_PATH fs' = (fs', Ok T)) as HT'.
  { apply _load_table_insert_ne; [|done].
    intros H. by apply (path_of_inj RESOURCE_PATH true_mappings predictions) in H. }
  assert (load_false_mappings RESOURCE_PATH fs' = (fs', Ok F)) as HF'.
  { apply _load_table_insert_ne; [|done].
    intros H. by apply (path_of_inj RESOURCE_PATH false_mappings predictions) in H. }
  assert (survivors (existing_keys T F after) m = []) as Hnone.
  { apply filter_none. apply Forall_forall. intros p Hp Hfresh. apply Hfresh.
    unfold existing_keys. rewrite Hperm.
    destruct (decide (key_of p ∈ existing_keys T F P)) as [Hin|Hnin].
    - unfold existing_keys in Hin. rewrite !fmap_app, !elem_of_app in Hin.
      rewrite !fmap_app, !elem_of_app. tauto.
    - assert (p ∈ S) as HpS by (by apply list_elem_of_filter).
      rewrite !fmap_app, !elem_of_app. do 3 right.
      rewrite <- list_fmap_compose. apply list_elem_of_fmap. exists p.
      split; [|done]. simpl. symmetry.
      apply key_of_project; [apply (header_keys predictions)|].
      rewrite Forall_forall in Hm. by apply Hm. }
  assert (Forall (has_columns KEY_COLUMNS) (T ++ F ++ after)) as Hkeys'.
  { rewrite app_assoc. apply Forall_app. split; [done|].
    apply (wf_keyed predictions). eapply Forall_impl; [exact Hafter|].
    apply schema_record_wf. }
  assert (forall sort2, (sort2 = true -> sort = true) ->
            append_predictions RESOURCE_PATH m true sort2 fs' = (fs', Ok tt)) as Hagain.
  { intros sort2 Hsort2.
    rewrite (append_predictions_run RESOURCE_PATH fs' T F after m sort2) by done.
    rewrite Hnone.
    pose proof (append_run RESOURCE_PATH predictions fs' after [] sort2 HP'
                  (Forall_nil_2 _)) as Hrun2.
    assert ((if sort2
             then sort_records (after ++ (project (header_of predictions) <$> []))
             else after ++ sort_records (project (header_of predictions) <$> []))
            = after) as Hsame.
    { rewrite fmap_nil. change (sort_records []) with (@nil Mapping).
      rewrite app_nil_r. destruct sort2; [|done].
      unfold after. rewrite (Hsort2 eq_refl). apply sort_records_idemp. }
    rewrite Hsame in Hrun2. etrans; [exact Hrun2|]. f_equal.
    unfold fs'. apply insert_insert_eq. }
  exists fs', after. split; [done|]. split; [done|]. split; [done|].
  split; apply Hagain; [done|discriminate].
Qed.

Lemma append_predictions_twice_witness :
  exists fs' after,
    append_predictions "resources"
      [ sample_prediction "ns1" "A" "ns2" "B" "0.5";
        sample_prediction "ns1" "A" "ns2" "C" "0.7" ] true false sample_tables
    = (fs', Ok tt) /\
    load_predictions "resources" fs' = (fs', Ok after) /\
    append_predictions "resources"
      [ sample_prediction "ns1" "A" "ns2" "B" "0.5";
        sample_prediction "ns1" "A" "ns2" "C" "0.7" ] true false fs'
    = (fs', Ok tt).
Proof.
  destruct sample_tables_load as (HT & HF & HP & Hkeys).
  destruct (append_predictions_twice "resources" sample_tables [sample_mapping "b"] []
              [sample_prediction "ns1" "A" "ns2" "B" "0.9"]
              [ sample_prediction "ns1" "A" "ns2" "B" "0.5";
                sample_prediction "ns1" "A" "ns2" "C" "0.7" ] false HT HF)
    as (fs' & after & Hrun & Hload & _ & _ & Hagain).
  - apply (wf_has_columns KEY_COLUMNS). repeat constructor.
  - exact (proj2 (proj2 sample_tables_hold)).
  - repeat constructor.
  - exists fs', after. exact (conj Hrun (conj Hload Hagain)).
Defined.

(** ** Line ends *)

Lemma universal_newlines_crlf s :
  all_chars (fun c => negb (Ascii.eqb c CR)) s = true ->
  universal_newlines (crlf s) = s.
Proof.
  induction s as [|c s IH]; [done|].
  simpl. intros [Hc Hs]%andb_true_iff. apply negb_true_iff in Hc.
  destruct (Ascii.eqb c LF) eqn:HLF.
  - apply Ascii.eqb_eq in HLF as ->. simpl. by rewrite IH.
  - simpl. rewrite Hc. by rewrite IH.
Qed.

Lemma text_of_rows_no_CR rows :
  forallb plain_row rows = true ->
  all_chars (fun c => negb (Ascii.eqb c CR)) (text_of_rows rows) = true.
Proof.
  intros Hrows.
  induction rows as [|row rows IH]; [done|].
  simpl in *. apply andb_true_iff in Hrows as [Hrow Hrows].
  unfold print_text. rewrite !all_chars_append, IH by done.
  rewrite plain_row_chars; [done| |done..].
  intros c (_ & _ & HCR)%plain_char_spec. by apply negb_true_iff, Ascii.eqb_neq.
Qed.

Lemma csv_reader_crlf rows :
  forallb plain_row rows = true ->
  csv_reader (crlf (text_of_rows rows)) = Ok rows.
Proof.
  intros Hrows. etrans; [|exact (csv_reader_text_of_rows rows Hrows)].
  unfold csv_reader.
  rewrite universal_newlines_crlf by by apply text_of_rows_no_CR.
  by rewrite universal_newlines_text_of_rows.
Qed.

(** X14: a table file with the line ends of another platform loads as the
    same table.  Where every line of a well-formed table ends in CR LF, the
    load returns the records that it returns for line feeds, and a lint
    writes the table back with line feeds only. *)
Theorem load_crlf (RESOURCE_PATH : string) (t : table) (fs : filesystem)
    (rs : list Mapping) :
  fs !! path_of RESOURCE_PATH t = Some (crlf (table_text (header_of t) rs)) ->
  Forall (fun r => wf_record (header_of t) r = true) rs ->
  load RESOURCE_PATH t fs = (fs, Ok (project (header_of t) <$> rs)) /\
  lint RESOURCE_PATH t fs
  = (<[path_of RESOURCE_PATH t := table_text (header_of t) (sort_records rs)]> fs,
     Ok tt).
Proof.
  intros Hfile Hrs.
  assert (load RESOURCE_PATH t fs = (fs, Ok (project (header_of t) <$> rs))) as Hload.
  { rewrite load_unfold. unfold _load_table.
    erewrite io_bind_ok; [|by unfold read_text; rewrite Hfile].
    erewrite io_bind_ok; cycle 1.
    { unfold lift, table_text.
      change (print_text (header_of t) +:+ rows_text (header_of t) rs)
        with (text_of_rows (header_of t :: (row_of (header_of t) <$> rs))).
      rewrite csv_reader_crlf; [done|].
      apply table_rows_plain; [apply good_header_of|done]. }
    unfold mret, io_ret. by rewrite <- list_fmap_compose. }
  split; [done|].
  rewrite (lint_run RESOURCE_PATH t fs _ Hload)
    by by apply wf_has_columns, project_wf.
  by rewrite sort_records_project, table_text_project.
Qed.

Lemma load_crlf_witness :
  load "resources" true_mappings
    {[ TRUE_MAPPINGS_PATH "resources" :=
         crlf (table_text MAPPINGS_HEADER [sample_mapping "b"]) ]}
  = ({[ TRUE_MAPPINGS_PATH "resources" :=
          crlf (table_text MAPPINGS_HEADER [sample_mapping "b"]) ]},
     Ok (project MAPPINGS_HEADER <$> [sample_mapping "b"])).
Proof.
  apply (load_crlf "resources" true_mappings).
  - apply lookup_singleton_eq.
  - repeat constructor.
Defined.
